(** * DynamoDB attribute clean-up script: a shallow embedding

    This development embeds [dynamodb_cleanup_script.js] in Rocq and
    proves properties of its pipeline: the backoff calculator, the
    paginated scanner, the change filter, the retrying mutator and the
    batch scheduler.

    Conventions of the embedding.
    - A table item (a plain JS object produced by [unmarshall]) is the
      finite map of its own properties, attribute name to JS value, with
      [Object.prototype] as its prototype.  A method call on an item and a
      read [item[name]] go through the item first and the prototype next:
      an attribute named [hasOwnProperty] hides the method of that name,
      and a name that the item lacks can still find a member of
      [Object.prototype].
    - JS numbers that hold durations are exact rationals ([Q]); counters
      and indices are integers ([Z]) or naturals.
    - Everything outside the script (the table behind the AWS client and
      the random number generator) is a state of an abstract type; an
      [async] function is a state transformer that may throw, and the list
      of events it appends to records the requests it sent and the timers
      it awaited.  Console output is not part of the model.
    - The invocations that [Promise.all] joins run one after the other, in
      the order of the batch; the counts, bounds and results proved of a
      batch do not depend on that order.  When an invocation throws, the
      join throws its error; the requests that the invocations after it
      had already sent by then are not among the events of the model.
    - A loop whose number of iterations is not bounded by its input takes a
      fuel argument; running out of fuel ([None]) stands for a run that
      goes on. *)

From Stdlib Require Import QArith Qminmax Qpower Lqa.
From stdpp Require Import gmap strings list fin_maps pretty.

Local Open Scope Z_scope.

(** ** Data model *)

(** JS values as [unmarshall] produces them, and [VInherited name] for
    the member [name] of [Object.prototype], a function (for [__proto__]
    the prototype itself), which a read through the prototype chain can
    yield. *)
#[local] Set Warnings "-register-all".
Inductive value : Type :=
  | VUndefined
  | VNull
  | VBool (b : bool)
  | VNum (n : Q)
  | VStr (s : string)
  | VBinary (bytes : list N)
  | VSet (elems : list value)
  | VList (elems : list value)
  | VMap (fields : list (string * value))
  | VInherited (member : string).

#[local] Set Warnings "+register-all".

(** An unmarshalled item: attribute name to value. *)
Abbreviation Item := (gmap string value).

(** JS truthiness, as used by [&&] and [if]. *)
Definition truthy (v : value) : bool :=
  match v with
  | VUndefined | VNull => false
  | VBool b => b
  | VNum n => negb (Qeq_bool n 0)
  | VStr s => negb (String.eqb s "")
  | VBinary _ | VSet _ | VList _ | VMap _ | VInherited _ => true
  end.

(** Truthiness of a string that may be [undefined] or [null]. *)
Definition truthyString (s : option string) : bool :=
  match s with
  | Some s => negb (String.eqb s "")
  | None => false
  end.

(** Truthiness of an object that may be [undefined] or [null]. *)
Definition defined {A} (o : option A) : bool :=
  match o with
  | Some _ => true
  | None => false
  end.

(** A thrown JS error, as far as the script inspects it. *)
Record error : Type := mkError { name : string; message : string }.

(** How a call ends: it returns a value or throws. *)
Inductive result (A : Type) : Type :=
  | Returned (a : A)
  | Thrown (e : error).

Arguments Returned {_} _.
Arguments Thrown {_} _.

(** The own property names of [Object.prototype]. *)
Definition objectPrototype : list string :=
  ["constructor"; "__defineGetter__"; "__defineSetter__"; "hasOwnProperty";
   "__lookupGetter__"; "__lookupSetter__"; "isPrototypeOf";
   "propertyIsEnumerable"; "toString"; "valueOf"; "__proto__";
   "toLocaleString"].

(** [item[name]]: the item's own property; failing that the member of
    [Object.prototype] of that name; failing that [undefined]. *)
Definition getProperty (item : Item) (name : string) : value :=
  match item !! name with
  | Some v => v
  | None => if bool_decide (name ∈ objectPrototype) then VInherited name
            else VUndefined
  end.

(** [obj[name] = v] on an object with the own properties [obj]: the
    property becomes an own property, except that for [__proto__], when it
    is not an own property already, the setter of [Object.prototype] runs
    instead and adds none. *)
Definition setProperty (obj : Item) (name : string) (v : value) : Item :=
  if bool_decide (name = "__proto__") && negb (bool_decide (is_Some (obj !! name)))
  then obj
  else <[name := v]> obj.

(** The error of calling a property that is not a function. *)
Definition notAFunction : error :=
  {| name := "TypeError"; message := "item.hasOwnProperty is not a function" |}.

(** [item.hasOwnProperty(attr)]: the method is looked up on the item.  An
    attribute named [hasOwnProperty] is found first, and is no function;
    otherwise the method of [Object.prototype] tells whether [attr] is an
    own property. *)
Definition hasOwnProperty (item : Item) (attr : string) : result bool :=
  match item !! "hasOwnProperty" with
  | Some _ => Thrown notAFunction
  | None => Returned (bool_decide (is_Some (item !! attr)))
  end.

(** [arr.some(callback)] for a callback that may throw: the elements are
    visited in order up to the first that passes or throws. *)
Fixpoint arraySome {A} (callback : A → result bool) (arr : list A) : result bool :=
  match arr with
  | [] => Returned false
  | x :: rest =>
      match callback x with
      | Thrown e => Thrown e
      | Returned true => Returned true
      | Returned false => arraySome callback rest
      end
  end.

(** [arr.filter(callback)] for a callback that may throw: the elements
    are visited in order and the first throw ends the call. *)
Fixpoint arrayFilter {A} (callback : A → result bool) (arr : list A)
    : result (list A) :=
  match arr with
  | [] => Returned []
  | x :: rest =>
      match callback x with
      | Thrown e => Thrown e
      | Returned keep =>
          match arrayFilter callback rest with
          | Thrown e => Thrown e
          | Returned kept => Returned (if keep then x :: kept else kept)
          end
      end
  end.

(** The result of [createUpdateExpression]. *)
Record UpdateSpec : Type := mkUpdateSpec {
  UpdateExpression : string;
  ExpressionAttributeNames : gmap string string
}.

Record KeySchema : Type := mkKeySchema {
  partitionKey : string;
  sortKey : option string
}.

(** ** Backoff calculator *)

(** [calculateBackoffDelay(attempt, baseDelay)]; [rnd] is the value that
    the call of [Math.random()] returned. *)
Definition calculateBackoffDelay (attempt : Z) (baseDelay : Q) (rnd : Q) : Q :=
  Qmin (baseDelay * Qpower 2 attempt + rnd * 1000) 30000.

(** ** Change filter *)

(** [filterItemsWithAttributes(items, attributesToRemove)] *)
Definition filterItemsWithAttributes (items : list Item)
    (attributesToRemove : list string) : result (list Item) :=
  arrayFilter
    (λ item, arraySome (λ attr, hasOwnProperty item attr) attributesToRemove)
    items.

(** The template literal [`#attr${index}`]. *)
Definition placeholder (index : nat) : string := "#attr" +:+ pretty index.

(** [Array.prototype.join] *)
Fixpoint join (sep : string) (parts : list string) : string :=
  match parts with
  | [] => ""
  | [part] => part
  | part :: rest => part +:+ sep +:+ join sep rest
  end.

(** The [forEach] of [createUpdateExpression]: one assignment
    [expressionAttributeNames[`#attr${index}`] = attr] per element. *)
Fixpoint assignNames (attrs : list string) (index : nat)
    (names : gmap string string) : gmap string string :=
  match attrs with
  | [] => names
  | attr :: rest => assignNames rest (S index) (<[placeholder index := attr]> names)
  end.

(** [createUpdateExpression(attributesToRemove, item)]; [None] is [null]. *)
Definition createUpdateExpression (attributesToRemove : list string)
    (item : Item) : result (option UpdateSpec) :=
  match arrayFilter (λ attr, hasOwnProperty item attr) attributesToRemove with
  | Thrown e => Thrown e
  | Returned existingAttributes =>
      if (length existingAttributes =? 0)%nat then Returned None
      else
        let removeExpression :=
          "REMOVE "
          +:+ join ", " (imap (λ index attr, placeholder index) existingAttributes) in
        let expressionAttributeNames := assignNames existingAttributes 0 ∅ in
        Returned (Some {| UpdateExpression := removeExpression;
                          ExpressionAttributeNames := expressionAttributeNames |})
  end.

(** ** Batch scheduler: grouping *)

(** Relative index of [Array.prototype.slice]. *)
Definition relativeIndex (len k : Z) : Z :=
  if k <? 0 then Z.max (len + k) 0 else Z.min k len.

(** [arr.slice(start, end)] *)
Definition slice {A} (arr : list A) (start end_ : Z) : list A :=
  let len := Z.of_nat (length arr) in
  let k := relativeIndex len start in
  let final := relativeIndex len end_ in
  take (Z.to_nat (final - k)) (drop (Z.to_nat k) arr).

(** The grouping loop of [processItemsInBatches]:
    [for (let i = 0; i < items.length; i += BATCH_SIZE)
       batches.push(items.slice(i, i + BATCH_SIZE))]. *)
Fixpoint groupLoop {A} (fuel : nat) (BATCH_SIZE : Z) (items : list A) (i : Z)
    (batches : list (list A)) : option (list (list A)) :=
  if i <? Z.of_nat (length items) then
    match fuel with
    | O => None
    | S fuel' =>
        groupLoop fuel' BATCH_SIZE items (i + BATCH_SIZE)
                  (batches ++ [slice items i (i + BATCH_SIZE)])
    end
  else Some batches.

(** The loop from [i = 0] with no batches; a positive step reaches
    [items.length] within [items.length] iterations. *)
Definition groupIntoBatches {A} (BATCH_SIZE : Z) (items : list A)
    : option (list (list A)) :=
  groupLoop (length items) BATCH_SIZE items 0 [].

(** ** The outside world and the effects of the script *)

Record ScanCommandInput (AttributeMap : Type) : Type := mkScanCommandInput {
  scan_TableName : string;
  ExclusiveStartKey : option AttributeMap
}.

Record ScanCommandOutput (AttributeMap : Type) : Type := mkScanCommandOutput {
  Items : option (list AttributeMap);
  LastEvaluatedKey : option AttributeMap
}.

Record UpdateItemCommandInput (AttributeMap : Type) : Type := mkUpdateItemCommandInput {
  update_TableName : string;
  Key : AttributeMap;
  update_spec : option UpdateSpec;   (* [...updateExpression]; spreading [null] adds nothing *)
  ReturnValues : string
}.

Arguments mkScanCommandInput {_} _ _.
Arguments scan_TableName {_} _.
Arguments ExclusiveStartKey {_} _.
Arguments mkScanCommandOutput {_} _ _.
Arguments Items {_} _.
Arguments LastEvaluatedKey {_} _.
Arguments mkUpdateItemCommandInput {_} _ _ _ _.
Arguments update_TableName {_} _.
Arguments Key {_} _.
Arguments update_spec {_} _.
Arguments ReturnValues {_} _.

(** What the script observes of its environment: the AWS client with the
    table behind it, the marshalling functions of the SDK and
    [Math.random].  [World] is the state of all of it. *)
Record Client : Type := mkClient {
  World : Type;
  AttributeMap : Type;
  unmarshall : AttributeMap → Item;
  marshall : Item → error + AttributeMap;
  sendScan : ScanCommandInput AttributeMap → World
             → (error + ScanCommandOutput AttributeMap) * World;
  sendUpdateItem : UpdateItemCommandInput AttributeMap → World
                   → (error + unit) * World;
  mathRandom : World → Q * World
}.

(** The constants read from the environment at start-up. *)
Record Config : Type := mkConfig {
  TABLE_NAME : option string;
  PARTITION_KEY : option string;
  ATTRIBUTES_TO_REMOVE : list string;
  BATCH_SIZE : Z;
  MAX_RETRIES : Z;
  INITIAL_DELAY : Z
}.

(** Requests sent and timers awaited, in the order they happen. *)
Inductive event (AttributeMap : Type) : Type :=
  | SentScan (input : ScanCommandInput AttributeMap)
  | SentUpdateItem (input : UpdateItemCommandInput AttributeMap)
  | Slept (ms : Q).

Arguments SentScan {_} _.
Arguments SentUpdateItem {_} _.
Arguments Slept {_} _.

Definition isRequest {AM} (e : event AM) : bool :=
  match e with Slept _ => false | _ => true end.

Definition isThrottle (e : error) : bool :=
  String.eqb (name e) "ProvisionedThroughputExceededException"
  || String.eqb (name e) "ThrottlingException".

(** What one pass through the body of a retry loop decides. *)
Inductive step (A : Type) : Type :=
  | Done (a : A)      (* [return a] *)
  | Continue.         (* [continue] *)

Arguments Done {_} _.
Arguments Continue {_}.

(** The numbers of the final summary that [main] prints. *)
Record Summary : Type := mkSummary {
  totalScanned : nat;
  needingUpdate : nat;
  succeeded : nat;
  failed : nat
}.

(** How [main] ends. *)
Inductive Outcome : Type :=
  | Exit1 (e : error)             (* the [catch] of [main]: [process.exit(1)] *)
  | NoItems                       (* 'No items found in the table.' *)
  | AllClean (scanned : nat)      (* 'No items need to be updated.' *)
  | Completed (summary : Summary).

Section Script.

Context (client : Client) (config : Config).

Abbreviation AM := (AttributeMap client).

(** The state an [async] function runs in, and the monad of such
    functions: [None] is a run that does not end within its fuel. *)
Definition state : Type := World client * list (event AM).

Definition M (A : Type) : Type := state → option (result A * state).

Definition ret {A} (a : A) : M A := λ s, Some (Returned a, s).

Definition throw {A} (e : error) : M A := λ s, Some (Thrown e, s).

Definition diverge {A} : M A := λ _, None.

Definition bind {A B} (m : M A) (k : A → M B) : M B :=
  λ s, match m s with
       | None => None
       | Some (Returned a, s') => k a s'
       | Some (Thrown e, s') => Some (Thrown e, s')
       end.

(** [try { body } catch (error) { handler }] *)
Definition tryCatch {A} (body : M A) (handler : error → M A) : M A :=
  λ s, match body s with
       | None => None
       | Some (Returned a, s') => Some (Returned a, s')
       | Some (Thrown e, s') => handler e s'
       end.

Notation "'let*' x ':=' m 'in' k" := (bind m (λ x, k))
  (at level 10, x name, m at level 100, k at level 200).
Notation "'let*' ' pat ':=' m 'in' k" := (bind m (λ '(pat), k))
  (at level 10, pat pattern, m at level 100, k at level 200).

(** A call of a synchronous function inside an asynchronous one. *)
Definition call {A} (r : result A) : M A :=
  match r with
  | Returned a => ret a
  | Thrown e => throw e
  end.

(** [await delay(ms)] *)
Definition delay (ms : Q) : M unit :=
  λ '(w, tr), Some (Returned (), (w, tr ++ [Slept ms])).

(** [Math.random()] *)
Definition random : M Q :=
  λ '(w, tr), let '(r, w') := mathRandom client w in Some (Returned r, (w', tr)).

(** [await dynamoClient.send(new ScanCommand(params))] *)
Definition sendScanCommand (params : ScanCommandInput AM) : M (ScanCommandOutput AM) :=
  λ '(w, tr),
    let '(r, w') := sendScan client params w in
    let s' := (w', tr ++ [SentScan params]) in
    match r with
    | inl e => Some (Thrown e, s')
    | inr response => Some (Returned response, s')
    end.

(** [await dynamoClient.send(new UpdateItemCommand(params))] *)
Definition sendUpdateItemCommand (params : UpdateItemCommandInput AM) : M unit :=
  λ '(w, tr),
    let '(r, w') := sendUpdateItem client params w in
    let s' := (w', tr ++ [SentUpdateItem params]) in
    match r with
    | inl e => Some (Thrown e, s')
    | inr _ => Some (Returned (), s')
    end.

(** [marshall(key)], which may throw. *)
Definition marshallKey (key : Item) : M AM :=
  match marshall client key with
  | inl e => throw e
  | inr k => ret k
  end.

(** [calculateBackoffDelay(attempt)] with the default base [INITIAL_DELAY]
    and the draw of [Math.random()] it makes. *)
Definition backoffDelay (attempt : Z) : M Q :=
  let* rnd := random in
  ret (calculateBackoffDelay attempt (inject_Z (INITIAL_DELAY config)) rnd).

(** ** Paginated scanner *)

(** The [try] block of [scanAllItems]: one page request.  It returns the
    new values of [items], [lastEvaluatedKey] and [scanCount]. *)
Definition scanPage (tableName : string) (items : list Item)
    (lastEvaluatedKey : option AM) (scanCount : nat)
    : M (list Item * option AM * nat) :=
  let params := mkScanCommandInput tableName lastEvaluatedKey in
  let* response := sendScanCommand params in
  let '(items1, scanCount1) :=
    match Items response with
    | Some page => (items ++ map (unmarshall client) page, S scanCount)
    | None => (items, scanCount)
    end in
  let lastEvaluatedKey1 := LastEvaluatedKey response in
  let* _ := (if defined lastEvaluatedKey1 then delay 50 else ret ()) in
  ret (items1, lastEvaluatedKey1, scanCount1).

(** The [do ... while (lastEvaluatedKey)] loop of [scanAllItems].  One
    pass runs the [try] block; its [catch] either throws or executes
    [continue], which in a [do ... while] goes to the test of the loop
    with the variables as they were before the request. *)
Fixpoint scanLoop (fuel : nat) (tableName : string) (items : list Item)
    (lastEvaluatedKey : option AM) (scanCount : nat) : M (list Item) :=
  match fuel with
  | O => diverge
  | S fuel' =>
      let* '(items', lastEvaluatedKey', scanCount') :=
        tryCatch
          (scanPage tableName items lastEvaluatedKey scanCount)
          (λ error,
             if isThrottle error then
               let* ms := backoffDelay 1 in
               let* _ := delay ms in
               ret (items, lastEvaluatedKey, scanCount)
             else throw error) in
      if defined lastEvaluatedKey' then
        scanLoop fuel' tableName items' lastEvaluatedKey' scanCount'
      else ret items'
  end.

(** [scanAllItems(tableName)]; [fuel] bounds the number of requests. *)
Definition scanAllItems (fuel : nat) (tableName : string) : M (list Item) :=
  scanLoop fuel tableName [] None 0.

(** ** Retrying mutator *)

(** The [try] block of [updateItemWithRetry]: one request; reaching its
    end is [return true]. *)
Definition updateAttempt (tableName : string) (key : Item)
    (updateExpression : option UpdateSpec) : M (step bool) :=
  let* marshalled := marshallKey key in
  let params :=
    mkUpdateItemCommandInput tableName marshalled updateExpression "NONE" in
  let* _ := sendUpdateItemCommand params in
  ret (Done true).

(** The [while (attempt < maxRetries)] loop of [updateItemWithRetry]. *)
Fixpoint updateLoop (fuel : nat) (tableName : string) (key : Item)
    (updateExpression : option UpdateSpec) (maxRetries attempt : Z) : M bool :=
  if attempt <? maxRetries then
    match fuel with
    | O => diverge
    | S fuel' =>
        let* outcome :=
          tryCatch
            (updateAttempt tableName key updateExpression)
            (λ error,
               if isThrottle error && (attempt <? maxRetries - 1) then
                 let* ms := backoffDelay attempt in
                 let* _ := delay ms in
                 ret Continue
               else ret (Done false)) in
        match outcome with
        | Done success => ret success
        | Continue =>
            updateLoop fuel' tableName key updateExpression maxRetries (attempt + 1)
        end
    end
  else ret false.

(** [updateItemWithRetry(tableName, key, updateExpression, maxRetries)];
    the loop starts at [attempt = 0] and adds one per pass, so
    [maxRetries] passes are enough fuel. *)
Definition updateItemWithRetry (tableName : string) (key : Item)
    (updateExpression : option UpdateSpec) (maxRetries : Z) : M bool :=
  updateLoop (Z.to_nat maxRetries) tableName key updateExpression maxRetries 0.

(** ** Batch scheduler *)

(** The callback that [processItemsInBatches] maps over a batch. *)
Definition processItem (tableName : string) (attributesToRemove : list string)
    (keySchema : KeySchema) (item : Item) : M bool :=
  let key : Item :=
    {[ partitionKey keySchema := getProperty item (partitionKey keySchema) ]} in
  let key :=
    match sortKey keySchema with
    | Some sk =>
        if truthyString (Some sk) && truthy (getProperty item sk)
        then setProperty key sk (getProperty item sk)
        else key
    | None => key
    end in
  let* updateExpression := call (createUpdateExpression attributesToRemove item) in
  let* success :=
    updateItemWithRetry tableName key updateExpression (MAX_RETRIES config) in
  ret success.

(** [await Promise.all(promises)]: the invocations of one batch, run to
    completion one after the other in the order of the batch; the first
    one that throws rejects the whole. *)
Fixpoint promiseAll {A} (promises : list (M A)) : M (list A) :=
  match promises with
  | [] => ret []
  | p :: rest =>
      let* a := p in
      let* others := promiseAll rest in
      ret (a :: others)
  end.

(** The [forEach] that counts the results of a batch. *)
Definition countResults (batchResults : list bool) (counts : nat * nat) : nat * nat :=
  foldl (λ '(successCount, errorCount) (success : bool),
           if success then (S successCount, errorCount)
           else (successCount, S errorCount))
        counts batchResults.

(** The [for (let batchIndex = 0; batchIndex < batches.length; batchIndex++)]
    loop; [rest] holds the batches from [batchIndex] on and [total] is
    [batches.length]. *)
Fixpoint batchLoop (tableName : string) (attributesToRemove : list string)
    (keySchema : KeySchema) (rest : list (list Item)) (batchIndex total : nat)
    (counts : nat * nat) : M (nat * nat) :=
  match rest with
  | [] => ret counts
  | batch :: rest' =>
      let batchPromises :=
        map (processItem tableName attributesToRemove keySchema) batch in
      let* batchResults := promiseAll batchPromises in
      let counts' := countResults batchResults counts in
      let* _ := (if Z.of_nat batchIndex <? Z.of_nat total - 1
                 then delay 200 else ret ()) in
      batchLoop tableName attributesToRemove keySchema rest' (S batchIndex) total counts'
  end.

(** [processItemsInBatches(items, tableName, attributesToRemove, keySchema)];
    the pair is [{ successCount, errorCount }]. *)
Definition processItemsInBatches (items : list Item) (tableName : string)
    (attributesToRemove : list string) (keySchema : KeySchema) : M (nat * nat) :=
  match groupIntoBatches (BATCH_SIZE config) items with
  | None => diverge
  | Some batches =>
      batchLoop tableName attributesToRemove keySchema batches 0 (length batches) (0, 0)%nat
  end.

(** [getTableKeySchema(tableName)]; a computed property name that is
    [undefined] reads as the string "undefined". *)
Definition getTableKeySchema (tableName : string) : M KeySchema :=
  ret {| partitionKey := default "undefined" (PARTITION_KEY config); sortKey := None |}.

(** ** Main function *)

Definition Error (msg : string) : error := {| name := "Error"; message := msg |}.

(** [main()]; [fuel] bounds the number of scan requests. *)
Definition main (fuel : nat) : M Outcome :=
  tryCatch
    (if negb (truthyString (TABLE_NAME config)) then
       throw (Error "DYNAMODB_TABLE_NAME environment variable is required")
     else if negb (truthyString (PARTITION_KEY config)) then
       throw (Error "PARTITION_KEY environment variable is required")
     else if (length (ATTRIBUTES_TO_REMOVE config) =? 0)%nat then
       throw (Error "ATTRIBUTES_TO_REMOVE environment variable is required (comma-separated list)")
     else
       let tableName := default "" (TABLE_NAME config) in
       let* keySchema := getTableKeySchema tableName in
       let* allItems := scanAllItems fuel tableName in
       if (length allItems =? 0)%nat then ret NoItems
       else
         let* itemsToUpdate :=
           call (filterItemsWithAttributes allItems (ATTRIBUTES_TO_REMOVE config)) in
         if (length itemsToUpdate =? 0)%nat then ret (AllClean (length allItems))
         else
           let* results :=
             processItemsInBatches itemsToUpdate tableName
                                   (ATTRIBUTES_TO_REMOVE config) keySchema in
           ret (Completed {| totalScanned := length allItems;
                             needingUpdate := length itemsToUpdate;
                             succeeded := results.1;
                             failed := results.2 |}))
    (λ error, ret (Exit1 error)).

End Script.

Arguments ret {_ _} _ _.
Arguments throw {_ _} _ _.
Arguments bind {_ _ _} _ _ _.
Arguments tryCatch {_ _} _ _ _.
Arguments promiseAll {_ _} _ _.
Arguments delay {_} _ _.
Arguments call {_ _} _ _.

(** ** Notions used in the statements *)

(** The item has no attribute named [hasOwnProperty]. *)
Definition plain (item : Item) : Prop := item !! "hasOwnProperty" = None.

(** At least one attribute of [attrs] is present on [item]. *)
Definition hasAny (attrs : list string) (item : Item) : Prop :=
  ∃ attr, attr ∈ attrs ∧ is_Some (item !! attr).

(** Number of batches still to come when the grouping loop is at [i]:
    [ceil((n - i) / BATCH_SIZE)] for the [n] items. *)
Definition batchesFrom {A} (BATCH_SIZE : Z) (items : list A) (i : Z) : Z :=
  (Z.max (Z.of_nat (length items) - i) 0 + BATCH_SIZE - 1) / BATCH_SIZE.

(** A call that, from every state, ends by returning. *)
Definition returns {client A} (m : M client A) : Prop :=
  ∀ s, ∃ a s', m s = Some (Returned a, s').

(** How a run ended, without the state it ended in. *)
Definition outcome {client A} (r : option (result A * state client))
    : option (result A) :=
  option_map fst r.

(** The items and the scan count after a response of the table. *)
Definition received (client : Client) (items : list Item) (scanCount : nat)
    (response : ScanCommandOutput (AttributeMap client)) : list Item * nat :=
  match Items response with
  | Some page => (items ++ map (unmarshall client) page, S scanCount)
  | None => (items, scanCount)
  end.

(** Requests and timers among the events of a run. *)
Definition requests {AM} (tr : list (event AM)) : nat :=
  length (List.filter isRequest tr).

Definition sleeps {AM} (tr : list (event AM)) : list Q :=
  omap (λ e, match e with Slept ms => Some ms | _ => None end) tr.

(** ** A scripted client

    A client whose answers are read off lists, one per call, to run the
    script on concrete tables.  Items travel unmarshalled; when a list is
    used up, a scan answers with a last, empty page, an update succeeds and
    [Math.random()] is [0]. *)
Module Scripted.

Record world : Type := mkWorld {
  scans : list (error + ScanCommandOutput Item);
  updates : list (error + unit);
  randoms : list Q
}.

Definition answerScan (_ : ScanCommandInput Item) (w : world)
    : (error + ScanCommandOutput Item) * world :=
  match scans w with
  | [] => (inr (mkScanCommandOutput (Some []) None), w)
  | r :: rest => (r, mkWorld rest (updates w) (randoms w))
  end.

Definition answerUpdateItem (_ : UpdateItemCommandInput Item) (w : world)
    : (error + unit) * world :=
  match updates w with
  | [] => (inr (), w)
  | r :: rest => (r, mkWorld (scans w) rest (randoms w))
  end.

Definition nextRandom (w : world) : Q * world :=
  match randoms w with
  | [] => (0%Q, w)
  | r :: rest => (r, mkWorld (scans w) (updates w) rest)
  end.

Definition client : Client :=
  {| World := world;
     AttributeMap := Item;
     unmarshall := λ item, item;
     marshall := λ key, inr key;
     sendScan := answerScan;
     sendUpdateItem := answerUpdateItem;
     mathRandom := nextRandom |}.

Definition config (attrs : list string) (maxRetries : Z) : Config :=
  {| TABLE_NAME := Some "devices";
     PARTITION_KEY := Some "id";
     ATTRIBUTES_TO_REMOVE := attrs;
     BATCH_SIZE := 25;
     MAX_RETRIES := maxRetries;
     INITIAL_DELAY := 100 |}.

Definition throttled : error :=
  {| name := "ThrottlingException"; message := "Rate exceeded" |}.

Definition denied : error :=
  {| name := "AccessDeniedException"; message := "not authorized" |}.

(** The item [{ id: n }] and the same with an attribute [old]. *)
Definition clean (n : Z) : Item := {[ "id" := VNum (inject_Z n) ]}.

Definition stale (n : Z) (old : string) : Item :=
  <[ "old" := VStr old ]> (clean n).

(** A page of [count] items with ids from [first] on. *)
Definition page (first : Z) (count : nat) : list Item :=
  map (λ k, clean (first + Z.of_nat k)) (seq 0 count).

(** A table of three items, two of them with the attribute [old], that
    refuses the first update. *)
Definition threeItems : world :=
  mkWorld [inr (mkScanCommandOutput
                  (Some [stale 1 "x"; clean 2; <["extra" := VNum 1]> (stale 3 "y")])
                  None)]
          [inl denied] [].

(** A table of 147 items that answers a scan in two pages. *)
Definition twoPages : world :=
  mkWorld [inr (mkScanCommandOutput (Some (page 0 100)) (Some (clean 99)));
           inr (mkScanCommandOutput (Some (page 100 47)) None)] [] [].

End Scripted.

(** ** Configuration from the environment

    The constants at the head of the script, as a function of
    [process.env].  [String.prototype.trim] and the global [parseInt] are
    taken as they come with the runtime; [parseInt] yields an integer or
    [NaN] ([None]). *)

(** [s.split(sep)] for a separator of one character. *)
Fixpoint splitOn (sep : Ascii.ascii) (s : string) : list string :=
  match s with
  | EmptyString => [""]
  | String c rest =>
      if Ascii.eqb c sep then "" :: splitOn sep rest
      else match splitOn sep rest with
           | part :: parts => String c part :: parts
           | [] => [String c ""]
           end
  end.

(** Number of occurrences of a character in a string. *)
Fixpoint occurrences (c : Ascii.ascii) (s : string) : nat :=
  match s with
  | EmptyString => 0
  | String c' rest =>
      if Ascii.eqb c' c then S (occurrences c rest) else occurrences c rest
  end.

(** The character [","]. *)
Definition comma : Ascii.ascii := Ascii.ascii_of_nat 44.

(** [n || fallback] for a number [n]: [NaN] and [0] are falsy. *)
Definition orNumber (n : option Z) (fallback : Z) : Z :=
  match n with
  | Some n => if n =? 0 then fallback else n
  | None => fallback
  end.

Section Environment.

Context (trim : string → string) (parseInt : option string → option Z).

(** Lines 6 to 12 of the script. *)
Definition loadConfig (env : gmap string string) : Config :=
  {| TABLE_NAME := env !! "DYNAMODB_TABLE_NAME";
     PARTITION_KEY := env !! "DYNAMODB_PARTITION_KEY";
     ATTRIBUTES_TO_REMOVE :=
       match env !! "ATTRIBUTES_TO_REMOVE" with
       | Some list => map (λ attr, trim attr) (splitOn comma list)
       | None => []
       end;
     BATCH_SIZE := orNumber (parseInt (env !! "BATCH_SIZE")) 25;
     MAX_RETRIES := orNumber (parseInt (env !! "MAX_RETRIES")) 5;
     INITIAL_DELAY := orNumber (parseInt (env !! "INITIAL_DELAY")) 100 |}.

End Environment.

(** ** Further notions used in the statements *)

(** The key object that the callback of [processItemsInBatches] builds
    for an item. *)
Definition primaryKey (keySchema : KeySchema) (item : Item) : Item :=
  let key : Item :=
    {[ partitionKey keySchema := getProperty item (partitionKey keySchema) ]} in
  match sortKey keySchema with
  | Some sk =>
      if truthyString (Some sk) && truthy (getProperty item sk)
      then setProperty key sk (getProperty item sk)
      else key
  | None => key
  end.

(** The removal expression for the single attribute [old]. *)
Definition removeOld : option UpdateSpec :=
  Some {| UpdateExpression := "REMOVE #attr0";
          ExpressionAttributeNames := {[ "#attr0" := "old" ]} |}.

(** The item with one more attribute, named [hasOwnProperty]. *)
Definition hiding (item : Item) : Item := <["hasOwnProperty" := VStr "yes"]> item.

(** The configuration passes the checks at the head of [main]. *)
Definition validConfiguration (config : Config) : Prop :=
  truthyString (TABLE_NAME config) = true
  ∧ truthyString (PARTITION_KEY config) = true
  ∧ ATTRIBUTES_TO_REMOVE config ≠ [].

(** The table answers the requests of a scan that starts from [key] with
    the pages [pages], each but the last with a continuation key; it is in
    state [w] before the first of them and in [w'] after the last. *)
Inductive answersPages (client : Client) (tableName : string)
    : World client → option (AttributeMap client)
      → list (option (list (AttributeMap client))) → World client → Prop :=
  | answers_last w key page w' :
      sendScan client (mkScanCommandInput tableName key) w
      = (inr (mkScanCommandOutput page None), w') →
      answersPages client tableName w key [page] w'
  | answers_more w key page next w1 pages w' :
      sendScan client (mkScanCommandInput tableName key) w
      = (inr (mkScanCommandOutput page (Some next)), w1) →
      answersPages client tableName w1 (Some next) pages w' →
      answersPages client tableName w key (page :: pages) w'.

(** The items of a page, unmarshalled; a response without [Items] has none. *)
Definition pageItems (client : Client)
    (page : option (list (AttributeMap client))) : list Item :=
  map (unmarshall client) (default [] page).

(** The events of a call of [updateItemWithRetry] that is throttled once
    for each draw of [rnds] and then sends a last request: a request and
    the backoff for attempt [first], a request and the backoff for attempt
    [first + 1], and so on. *)
Fixpoint retryEvents {AM} (params : UpdateItemCommandInput AM) (base : Q)
    (first : Z) (rnds : list Q) : list (event AM) :=
  match rnds with
  | [] => [SentUpdateItem params]
  | rnd :: rest =>
      SentUpdateItem params :: Slept (calculateBackoffDelay first base rnd)
      :: retryEvents params base (first + 1) rest
  end.

(** ** Steady clients

    A table that accepts every request (a scan finds it empty), one that
    throttles every request, and an accepting one whose [marshall] refuses
    a key with an [undefined] value.  None has any state. *)
Module Steady.

Definition accepting : Client :=
  {| World := unit;
     AttributeMap := Item;
     unmarshall := λ item, item;
     marshall := λ key, inr key;
     sendScan := λ _ w, (inr (mkScanCommandOutput (Some []) None), w);
     sendUpdateItem := λ _ w, (inr (), w);
     mathRandom := λ w, (0%Q, w) |}.

Definition jammed : Client :=
  {| World := unit;
     AttributeMap := Item;
     unmarshall := λ item, item;
     marshall := λ key, inr key;
     sendScan := λ _ w, (inl Scripted.throttled, w);
     sendUpdateItem := λ _ w, (inl Scripted.throttled, w);
     mathRandom := λ w, (0%Q, w) |}.

Definition undefinedValue : error :=
  {| name := "Error";
     message := "Pass options.removeUndefinedValues=true to remove undefined values from map/array/set." |}.

Definition isUndefined (v : value) : bool :=
  match v with
  | VUndefined => true
  | _ => false
  end.

Definition strict : Client :=
  {| World := unit;
     AttributeMap := Item;
     unmarshall := λ item, item;
     marshall := λ key,
       if map_fold (λ _ v found, found || isUndefined v) false key
       then inl undefinedValue else inr key;
     sendScan := λ _ w, (inr (mkScanCommandOutput (Some []) None), w);
     sendUpdateItem := λ _ w, (inr (), w);
     mathRandom := λ w, (0%Q, w) |}.

End Steady.

(** * Properties *)

(** ** Small runs of the pure functions *)

Example slice_mid : slice [1; 2; 3; 4; 5] 2 4 = [3; 4].
Proof. reflexivity. Qed.

Example slice_past_end : slice [1; 2; 3; 4; 5] 3 6 = [4; 5].
Proof. reflexivity. Qed.

Example group_7_by_3 :
  groupIntoBatches 3 [1; 2; 3; 4; 5; 6; 7] = Some [[1; 2; 3]; [4; 5; 6]; [7]].
Proof. reflexivity. Qed.

Example placeholder_12 : placeholder 12 = "#attr12".
Proof. reflexivity. Qed.

(** The items [{id: 1, old: "x"}], [{id: 2}] and [{id: 3, old: "y", extra: 1}]
    with the attribute list [old]: the first and the third are selected. *)
Example select_stale_items :
  let items := [Scripted.stale 1 "x"; Scripted.clean 2;
                <["extra" := VNum 1]> (Scripted.stale 3 "y")] in
  filterItemsWithAttributes items ["old"]
  = Returned [Scripted.stale 1 "x"; <["extra" := VNum 1]> (Scripted.stale 3 "y")].
Proof. reflexivity. Qed.

Example removeExpression_two :
  createUpdateExpression ["old"; "id"; "gone"] (Scripted.stale 1 "x")
  = Returned (Some {| UpdateExpression := "REMOVE #attr0, #attr1";
                      ExpressionAttributeNames :=
                        {[ "#attr0" := "old"; "#attr1" := "id" ]} |}).
Proof. reflexivity. Qed.

(** A read of a name that the item lacks finds the member of
    [Object.prototype], if there is one. *)
Example getProperty_inherited :
  getProperty (Scripted.clean 1) "toString" = VInherited "toString"
  ∧ getProperty (Scripted.clean 1) "version" = VUndefined.
Proof. split; reflexivity. Qed.

(** ** Backoff calculator: bounds *)

Lemma jitter_range (rnd : Q) :
  (0 <= rnd)%Q → (rnd < 1)%Q → (0 <= rnd * 1000)%Q ∧ (rnd * 1000 < 1000)%Q.
Proof.
  intros H0 H1. split; lra.
Qed.

Lemma exponential_term_pos (attempt : Z) (baseDelay : Q) :
  (0 < baseDelay)%Q → (0 < baseDelay * 2 ^ attempt)%Q.
Proof.
  intros Hb. apply Qmult_lt_0_compat; [done |].
  apply Qpower_0_lt. reflexivity.
Qed.

(** C7 (as stated): with base 100 and attempt 9 the exponential term is
    51200, above the cap, so the delay is the cap and lies below the term. *)
Lemma calculateBackoffDelay_below_exponential_term :
  0 ≤ 9 ∧ (0 < 100)%Q ∧ (0 <= 0)%Q ∧ (0 < 1)%Q
  ∧ (calculateBackoffDelay 9 100 0 == 30000)%Q
  ∧ ¬ (100 * 2 ^ 9 <= calculateBackoffDelay 9 100 0)%Q.
Proof.
  repeat split; try done.
  vm_compute. intros H. apply H. reflexivity.
Qed.

(** C7 (amended): for an attempt number [a ≥ 0], a positive base and a
    draw of [Math.random()] in [0, 1), the delay is
    [min(base * 2^a + jitter, 30000)] with the jitter in [0, 1000); it is
    at most 30000 and at least [min(base * 2^a, 30000)], and it is at least
    [base * 2^a] whenever the cap does not apply. *)
Theorem calculateBackoffDelay_bounds (attempt : Z) (baseDelay rnd : Q) :
  0 ≤ attempt → (0 < baseDelay)%Q → (0 <= rnd)%Q → (rnd < 1)%Q →
  let jitter := (rnd * 1000)%Q in
  let delay := calculateBackoffDelay attempt baseDelay rnd in
  (0 <= jitter)%Q ∧ (jitter < 1000)%Q
  ∧ (delay == Qmin (baseDelay * 2 ^ attempt + jitter) 30000)%Q
  ∧ (delay <= 30000)%Q
  ∧ (Qmin (baseDelay * 2 ^ attempt) 30000 <= delay)%Q
  ∧ ((baseDelay * 2 ^ attempt + jitter <= 30000)%Q →
     (baseDelay * 2 ^ attempt <= delay)%Q)
  ∧ (0 < delay)%Q.
Proof.
  intros Ha Hb H0 H1 jitter delay.
  destruct (jitter_range rnd H0 H1) as [Hj0 Hj1].
  assert (Hterm : (baseDelay * 2 ^ attempt <= baseDelay * 2 ^ attempt + jitter)%Q).
  { subst jitter. generalize (baseDelay * 2 ^ attempt)%Q. intros term. lra. }
  pose proof (exponential_term_pos attempt baseDelay Hb) as Hpos.
  subst delay. unfold calculateBackoffDelay. fold jitter.
  repeat split; try done.
  - apply Q.le_min_r.
  - apply Q.min_le_compat_r. exact Hterm.
  - intros Hcap. rewrite (Q.min_l _ _ Hcap). exact Hterm.
  - apply Q.min_glb_lt; [| reflexivity].
    eapply Qlt_le_trans; [exact Hpos | exact Hterm].
Qed.

Lemma calculateBackoffDelay_bounds_witness :
  let d := calculateBackoffDelay 2 100 (1 # 2) in
  (d <= 30000)%Q ∧ (Qmin (100 * 2 ^ 2) 30000 <= d)%Q.
Proof.
  assert (H : 0 ≤ 2) by lia.
  assert (Hb : (0 < 100)%Q) by reflexivity.
  assert (H0 : (0 <= 1 # 2)%Q) by discriminate.
  assert (H1 : (1 # 2 < 1)%Q) by reflexivity.
  pose proof (calculateBackoffDelay_bounds 2 100 (1 # 2) H Hb H0 H1) as P.
  simpl in P. destruct P as (_ & _ & _ & Hle & Hge & _).
  split; [exact Hle | exact Hge].
Defined.

(** ** Change filter: selection *)

Lemma hasOwnProperty_plain (item : Item) (attr : string) :
  plain item →
  hasOwnProperty item attr = Returned (bool_decide (is_Some (item !! attr))).
Proof. unfold plain, hasOwnProperty. by intros ->. Qed.

Lemma hasOwnProperty_hidden (item : Item) (attr : string) :
  ¬ plain item → hasOwnProperty item attr = Thrown notAFunction.
Proof.
  unfold plain, hasOwnProperty. intros Hhidden.
  by destruct (item !! "hasOwnProperty").
Qed.

Lemma hasAny_Exists (attrs : list string) (item : Item) :
  hasAny attrs item ↔ Exists (λ attr, is_Some (item !! attr)) attrs.
Proof. unfold hasAny. by rewrite Exists_exists. Qed.

(** The callback of the filter on one item. *)
Lemma some_hasOwnProperty_plain (attrs : list string) (item : Item) :
  plain item →
  arraySome (λ attr, hasOwnProperty item attr) attrs
  = Returned (bool_decide (Exists (λ attr, is_Some (item !! attr)) attrs)).
Proof.
  intros Hplain. induction attrs as [| attr rest IH].
  - reflexivity.
  - cbn [arraySome]. rewrite (hasOwnProperty_plain item attr Hplain).
    destruct (bool_decide (is_Some (item !! attr))) eqn:Hattr.
    + apply bool_decide_eq_true in Hattr.
      rewrite bool_decide_eq_true_2; [done |]. by apply Exists_cons_hd.
    + apply bool_decide_eq_false in Hattr. rewrite IH. f_equal.
      apply bool_decide_ext. rewrite Exists_cons. tauto.
Qed.

Lemma some_hasOwnProperty_hidden (attrs : list string) (item : Item) :
  ¬ plain item → attrs ≠ [] →
  arraySome (λ attr, hasOwnProperty item attr) attrs = Thrown notAFunction.
Proof.
  intros Hhidden Hne. destruct attrs as [| attr rest]; [done |].
  simpl. by rewrite hasOwnProperty_hidden.
Qed.

Lemma arrayFilter_returned {A} (callback : A → result bool) (P : A → Prop)
    `{!∀ x, Decision (P x)} (arr : list A) :
  Forall (λ x, callback x = Returned (bool_decide (P x))) arr →
  arrayFilter callback arr = Returned (filter P arr).
Proof.
  induction 1 as [| x rest Hx Hrest IH]; [done |].
  simpl. rewrite Hx, IH, filter_cons.
  destruct (decide (P x)) as [HP | HP].
  - by rewrite bool_decide_eq_true_2.
  - by rewrite bool_decide_eq_false_2.
Qed.

Lemma filterItemsWithAttributes_plain (items : list Item) (attrs : list string) :
  Forall plain items →
  filterItemsWithAttributes items attrs
  = Returned (filter (λ item, Exists (λ attr, is_Some (item !! attr)) attrs) items).
Proof.
  intros Hplain. unfold filterItemsWithAttributes.
  apply arrayFilter_returned. eapply Forall_impl; [exact Hplain |].
  intros item. apply some_hasOwnProperty_plain.
Qed.

Lemma filterItemsWithAttributes_no_attributes (items : list Item) :
  filterItemsWithAttributes items [] = Returned [].
Proof.
  unfold filterItemsWithAttributes. induction items as [| item rest IH]; [done |].
  simpl. simpl in IH. by rewrite IH.
Qed.

Lemma filterItemsWithAttributes_hidden (items : list Item) (attrs : list string) :
  attrs ≠ [] → ¬ Forall plain items →
  filterItemsWithAttributes items attrs = Thrown notAFunction.
Proof.
  intros Hne. unfold filterItemsWithAttributes.
  induction items as [| item rest IH]; intros Hhidden.
  - exfalso. apply Hhidden. constructor.
  - simpl. destruct (decide (plain item)) as [Hplain | Hitem].
    + rewrite (some_hasOwnProperty_plain attrs item Hplain).
      rewrite IH; [done |]. intros Hrest. apply Hhidden. by constructor.
    + by rewrite some_hasOwnProperty_hidden.
Qed.

(** What the filter does, by its arguments. *)
Lemma filterItemsWithAttributes_cases (items : list Item) (attrs : list string) :
  (attrs = [] ∧ filterItemsWithAttributes items attrs = Returned [])
  ∨ (attrs ≠ [] ∧ Forall plain items
     ∧ filterItemsWithAttributes items attrs
       = Returned (filter (λ item, Exists (λ attr, is_Some (item !! attr)) attrs)
                          items))
  ∨ (attrs ≠ [] ∧ ¬ Forall plain items
     ∧ filterItemsWithAttributes items attrs = Thrown notAFunction).
Proof.
  destruct attrs as [| attr rest].
  - left. split; [done |]. apply filterItemsWithAttributes_no_attributes.
  - right. destruct (decide (Forall plain items)) as [Hplain | Hhidden].
    + left. split; [done |]. split; [done |].
      by apply filterItemsWithAttributes_plain.
    + right. split; [done |]. split; [done |].
      by apply filterItemsWithAttributes_hidden.
Qed.

(** A filter keeps every subsequence whose elements all pass the test. *)
Lemma sublist_filter_greatest {A} (P : A → Prop) `{!∀ x, Decision (P x)}
    (l k : list A) :
  l `sublist_of` k → Forall P l → l `sublist_of` filter P k.
Proof.
  induction 1 as [| x l k Hsub IH | x l k Hsub IH]; intros Hall.
  - apply sublist_nil_l.
  - apply Forall_cons in Hall as [Hx Hall].
    rewrite filter_cons_True by done. apply sublist_skip. by apply IH.
  - rewrite filter_cons. case_decide; [apply sublist_cons |]; by apply IH.
Qed.

Lemma filter_all {A} (P : A → Prop) `{!∀ x, Decision (P x)} (l : list A) :
  Forall P l → filter P l = l.
Proof.
  induction 1 as [| x l Hx Hall IH]; [done |].
  rewrite filter_cons_True by done. by rewrite IH.
Qed.

Lemma filter_none {A} (P : A → Prop) `{!∀ x, Decision (P x)} (l : list A) :
  Forall (λ x, ¬ P x) l → filter P l = [].
Proof.
  induction 1 as [| x l Hx Hall IH]; [done |].
  by rewrite filter_cons_False.
Qed.

(** C5 (the code at the failing input): a list of two items, the second
    with the attribute [old] to remove and an attribute named
    [hasOwnProperty].  [filterItemsWithAttributes] does not return the
    second item: the call [item.hasOwnProperty(attr)] finds the attribute
    instead of the method, and the filter throws a [TypeError]. *)
Theorem filterItemsWithAttributes_throws_on_hidden_method :
  filterItemsWithAttributes [Scripted.stale 1 "x"; hiding (Scripted.stale 2 "y")]
                            ["old"]
  = Thrown notAFunction.
Proof. reflexivity. Qed.

(** X21: on items none of which has an attribute named [hasOwnProperty],
    [filterItemsWithAttributes] returns the subsequence of the items that
    have at least one of the attributes: a subsequence of the input (same
    order), whose elements are exactly the input items with such an
    attribute, which contains every subsequence of the input made of such
    items; filtering the result again returns the same list. *)
Theorem filterItemsWithAttributes_on_plain_items (items : list Item) (attrs : list string) :
  Forall plain items →
  ∃ selected,
    filterItemsWithAttributes items attrs = Returned selected
    ∧ selected `sublist_of` items
    ∧ (∀ item, item ∈ selected ↔ item ∈ items ∧ hasAny attrs item)
    ∧ (∀ l, l `sublist_of` items → Forall (hasAny attrs) l → l `sublist_of` selected)
    ∧ filterItemsWithAttributes selected attrs = Returned selected.
Proof.
  intros Hplain. eexists. split; [by apply filterItemsWithAttributes_plain |].
  split; [apply sublist_filter |]. split; [| split].
  - intros item. rewrite list_elem_of_filter, hasAny_Exists. tauto.
  - intros l Hsub Hall. apply sublist_filter_greatest; [done |].
    eapply Forall_impl; [exact Hall |]. intros item. by rewrite hasAny_Exists.
  - rewrite filterItemsWithAttributes_plain.
    + f_equal. apply filter_all. apply Forall_forall.
      intros item [Hpass _]%list_elem_of_filter. exact Hpass.
    + apply Forall_forall. intros item [_ Hin]%list_elem_of_filter.
      by apply (proj1 (Forall_forall _ _) Hplain).
Qed.

Lemma filterItemsWithAttributes_on_plain_items_witness :
  ∃ selected,
    filterItemsWithAttributes
      [Scripted.stale 1 "x"; Scripted.clean 2;
       <["extra" := VNum 1]> (Scripted.stale 3 "y")] ["old"]
    = Returned selected
    ∧ length selected = 2%nat.
Proof.
  assert (Hplain : Forall plain [Scripted.stale 1 "x"; Scripted.clean 2;
                                 <["extra" := VNum 1]> (Scripted.stale 3 "y")])
    by (repeat constructor).
  destruct (filterItemsWithAttributes_on_plain_items _ ["old"] Hplain)
    as (selected & Hrun & _).
  exists selected. split; [exact Hrun |].
  injection Hrun as <-. reflexivity.
Defined.

(** ** Change filter: the removal expression *)

Lemma placeholder_inj (i j : nat) : placeholder i = placeholder j → i = j.
Proof.
  unfold placeholder. intros H%String.app_inj. by apply pretty_nat_inj in H.
Qed.

Lemma assignNames_other (attrs : list string) (index : nat)
    (names : gmap string string) (k : string) :
  (∀ i, (i < length attrs)%nat → k ≠ placeholder (index + i)) →
  assignNames attrs index names !! k = names !! k.
Proof.
  revert index names. induction attrs as [| attr rest IH]; intros index names Hk.
  - done.
  - simpl. rewrite IH.
    + apply lookup_insert_ne. intros Heq.
      apply (Hk 0%nat); [simpl; lia |]. by rewrite Nat.add_0_r.
    + intros i Hi. replace (S index + i)%nat with (index + S i)%nat by lia.
      apply Hk. simpl. lia.
Qed.

Lemma assignNames_lookup (attrs : list string) (index : nat)
    (names : gmap string string) (i : nat) :
  (i < length attrs)%nat →
  assignNames attrs index names !! placeholder (index + i) = attrs !! i.
Proof.
  revert index names i. induction attrs as [| attr rest IH]; intros index names i Hi.
  - simpl in Hi. lia.
  - simpl. destruct i as [| i].
    + rewrite Nat.add_0_r. rewrite assignNames_other.
      * apply lookup_insert_eq.
      * intros j _ Heq%placeholder_inj. lia.
    + replace (index + S i)%nat with (S index + i)%nat by lia.
      apply IH. simpl in Hi. lia.
Qed.

Lemma assignNames_origin (attrs : list string) (index : nat)
    (names : gmap string string) (k a : string) :
  assignNames attrs index names !! k = Some a →
  names !! k = Some a ∨ ∃ i, k = placeholder (index + i) ∧ attrs !! i = Some a.
Proof.
  revert index names. induction attrs as [| attr rest IH]; intros index names Hk.
  - by left.
  - simpl in Hk. apply IH in Hk as [Hk | (i & -> & Hi)].
    + destruct (decide (placeholder index = k)) as [<- | Hne].
      * rewrite lookup_insert_eq in Hk. right. exists 0%nat.
        rewrite Nat.add_0_r. split; [done |]. simpl. congruence.
      * rewrite lookup_insert_ne in Hk by done. by left.
    + right. exists (S i). split; [f_equal; lia | done].
Qed.

Lemma assignNames_empty (attrs : list string) (k a : string) :
  assignNames attrs 0 ∅ !! k = Some a ↔
  ∃ i, k = placeholder i ∧ attrs !! i = Some a.
Proof.
  split.
  - intros [Hk | (i & -> & Hi)]%assignNames_origin.
    + by rewrite lookup_empty in Hk.
    + by exists i.
  - intros (i & -> & Hi).
    rewrite <- Hi. apply (assignNames_lookup attrs 0 ∅ i).
    by eapply lookup_lt_Some.
Qed.

Lemma assignNames_placeholder (attrs : list string) (i : nat) :
  assignNames attrs 0 ∅ !! placeholder i = attrs !! i.
Proof.
  destruct (decide (i < length attrs)%nat) as [Hi | Hi].
  - apply (assignNames_lookup attrs 0 ∅ i Hi).
  - rewrite (lookup_ge_None_2 attrs i) by lia.
    rewrite assignNames_other; [apply lookup_empty |].
    intros j Hj Heq%placeholder_inj. simpl in Heq. lia.
Qed.

(** [join] is the concatenation with separators of the standard library. *)
Lemma join_concat (sep : string) (parts : list string) :
  join sep parts = String.concat sep parts.
Proof.
  induction parts as [| part rest IH]; [done |].
  destruct rest as [| part2 rest]; [done |].
  change (part +:+ sep +:+ join sep (part2 :: rest)
          = part +:+ sep +:+ String.concat sep (part2 :: rest)).
  by rewrite IH.
Qed.

(** The attributes of the list that the item has, in the order of the list. *)
Lemma existing_plain (attributesToRemove : list string) (item : Item) :
  plain item →
  arrayFilter (λ attr, hasOwnProperty item attr) attributesToRemove
  = Returned (filter (λ attr, is_Some (item !! attr)) attributesToRemove).
Proof.
  intros Hplain. apply arrayFilter_returned. apply Forall_forall.
  intros attr _. by apply hasOwnProperty_plain.
Qed.

Lemma createUpdateExpression_plain (attributesToRemove : list string) (item : Item) :
  plain item →
  let present := filter (λ attr, is_Some (item !! attr)) attributesToRemove in
  createUpdateExpression attributesToRemove item
  = Returned
      (if (length present =? 0)%nat then None
       else Some {| UpdateExpression :=
                      "REMOVE "
                      +:+ join ", " (imap (λ index attr, placeholder index) present);
                    ExpressionAttributeNames := assignNames present 0 ∅ |}).
Proof.
  intros Hplain present. unfold createUpdateExpression.
  rewrite (existing_plain attributesToRemove item Hplain). fold present.
  by destruct (length present =? 0)%nat.
Qed.

Lemma createUpdateExpression_hidden (attributesToRemove : list string) (item : Item) :
  ¬ plain item → attributesToRemove ≠ [] →
  createUpdateExpression attributesToRemove item = Thrown notAFunction.
Proof.
  intros Hhidden Hne. unfold createUpdateExpression.
  destruct attributesToRemove as [| attr rest]; [done |].
  simpl. by rewrite hasOwnProperty_hidden.
Qed.

(** Whenever the function returns, it returns what it does on the
    attributes that the item has. *)
Lemma createUpdateExpression_returned (attributesToRemove : list string)
    (item : Item) (r : option UpdateSpec) :
  createUpdateExpression attributesToRemove item = Returned r →
  let present := filter (λ attr, is_Some (item !! attr)) attributesToRemove in
  r = if (length present =? 0)%nat then None
      else Some {| UpdateExpression :=
                     "REMOVE "
                     +:+ join ", " (imap (λ index attr, placeholder index) present);
                   ExpressionAttributeNames := assignNames present 0 ∅ |}.
Proof.
  intros Hrun present. destruct (decide (plain item)) as [Hplain | Hhidden].
  - rewrite (createUpdateExpression_plain attributesToRemove item Hplain) in Hrun.
    by injection Hrun as <-.
  - destruct attributesToRemove as [| attr rest].
    + by injection Hrun as <-.
    + rewrite createUpdateExpression_hidden in Hrun by done. discriminate.
Qed.

(** C6 (the code at the failing input): an item with the attribute [old]
    to remove and an attribute named [hasOwnProperty].
    [createUpdateExpression] returns neither [null] nor an expression: the
    call [item.hasOwnProperty(attr)] finds the attribute instead of the
    method and throws a [TypeError]. *)
Theorem createUpdateExpression_throws_on_hidden_method :
  createUpdateExpression ["old"] (hiding (Scripted.stale 2 "y"))
  = Thrown notAFunction.
Proof. reflexivity. Qed.

(** X22: whenever [createUpdateExpression] returns, it returns [null]
    exactly when the item has none of the attributes.  Otherwise, with
    [present] the attributes of the list that the item has, the expression
    is ["REMOVE "] followed by the placeholders [#attr0], [#attr1], ...
    separated by [", "] (one per element of [present], so its text depends
    on their number only and never on a name), the name map sends the
    [i]-th placeholder to the [i]-th element of [present] and has no other
    key, and the names it maps to are exactly the attributes of the list
    that the item has.  It returns for every item without an attribute
    named [hasOwnProperty]. *)
Theorem createUpdateExpression_result (attributesToRemove : list string) (item : Item) :
  let present := filter (λ attr, is_Some (item !! attr)) attributesToRemove in
  (plain item → ∃ r, createUpdateExpression attributesToRemove item = Returned r)
  ∧ (∀ r, createUpdateExpression attributesToRemove item = Returned r →
       (r = None ↔ ∀ attr, attr ∈ attributesToRemove → item !! attr = None)
       ∧ ∀ spec, r = Some spec →
           (0 < length present)%nat
           ∧ UpdateExpression spec
             = "REMOVE "
               +:+ String.concat ", " (placeholder <$> seq 0 (length present))
           ∧ (∀ i, ExpressionAttributeNames spec !! placeholder i = present !! i)
           ∧ (∀ k attr, ExpressionAttributeNames spec !! k = Some attr
                        → ∃ i, k = placeholder i ∧ present !! i = Some attr)
           ∧ (∀ attr, (∃ k, ExpressionAttributeNames spec !! k = Some attr)
                      ↔ attr ∈ attributesToRemove ∧ is_Some (item !! attr))).
Proof.
  intros present. split.
  { intros Hplain. rewrite (createUpdateExpression_plain _ _ Hplain). eauto. }
  intros r Hrun. apply createUpdateExpression_returned in Hrun. fold present in Hrun.
  assert (Hmem : ∀ attr, attr ∈ present
                         ↔ attr ∈ attributesToRemove ∧ is_Some (item !! attr)).
  { intros attr. subst present. rewrite list_elem_of_filter. tauto. }
  destruct (Nat.eqb_spec (length present) 0) as [Hlen | Hlen]; subst r; split.
  - split; [| done]. intros _ attr Hin.
    destruct (item !! attr) as [v |] eqn:Hv; [| done].
    assert (Hp : attr ∈ present) by (apply Hmem; rewrite Hv; eauto).
    apply nil_length_inv in Hlen. rewrite Hlen in Hp. by apply elem_of_nil in Hp.
  - intros spec Hspec. discriminate.
  - split; [discriminate |]. intros Hnone. exfalso. apply Hlen.
    destruct present as [| attr rest]; [done |].
    destruct (proj1 (Hmem attr) (list_elem_of_here attr rest)) as [Hin [v Hv]].
    rewrite (Hnone attr Hin) in Hv. discriminate.
  - intros spec [= <-]. simpl. split; [lia |].
    split; [by rewrite imap_seq_0, join_concat |].
    split; [apply assignNames_placeholder |].
    split; [intros k attr; apply assignNames_empty |].
    intros attr. rewrite <- Hmem. split.
    + intros [k (i & _ & Hi)%assignNames_empty].
      by eapply list_elem_of_lookup_2.
    + intros [i Hi]%list_elem_of_lookup_1.
      exists (placeholder i). apply assignNames_empty. by exists i.
Qed.

Lemma createUpdateExpression_result_witness :
  ∃ spec,
    createUpdateExpression ["old"; "id"; "gone"] (Scripted.stale 1 "x")
    = Returned (Some spec)
    ∧ UpdateExpression spec = "REMOVE #attr0, #attr1".
Proof.
  destruct (createUpdateExpression_result ["old"; "id"; "gone"] (Scripted.stale 1 "x"))
    as [Hreturns Hspec].
  destruct (Hreturns eq_refl) as [r Hrun].
  destruct (Hspec r Hrun) as [_ Hsome].
  destruct r as [spec |]; [| discriminate].
  exists spec. split; [exact Hrun |].
  destruct (Hsome spec eq_refl) as (_ & Hexpr & _). rewrite Hexpr. reflexivity.
Defined.

(** ** Batch scheduler: grouping *)

Section Grouping.

Context {A : Type} (BATCH_SIZE : Z) (items : list A).
Hypothesis BATCH_SIZE_pos : 0 < BATCH_SIZE.

(** Inside the loop the slice is the next [BATCH_SIZE] items, or what is
    left of them. *)
Lemma slice_in_loop (i : Z) :
  0 ≤ i →
  slice items i (i + BATCH_SIZE)
  = take (Z.to_nat BATCH_SIZE) (drop (Z.to_nat i) items).
Proof.
  intros Hi. unfold slice, relativeIndex.
  destruct (Z.ltb_spec i 0) as [? | _]; [lia |].
  destruct (Z.ltb_spec (i + BATCH_SIZE) 0) as [? | _]; [lia |].
  set (n := Z.of_nat (length items)).
  destruct (Z.le_gt_cases (i + BATCH_SIZE) n) as [Hin | Hout].
  - rewrite (Z.min_l i), (Z.min_l (i + BATCH_SIZE)) by lia.
    f_equal. lia.
  - rewrite (Z.min_r (i + BATCH_SIZE)) by lia.
    destruct (Z.le_gt_cases i n) as [Hle | Hgt].
    + rewrite (Z.min_l i) by lia.
      rewrite !take_ge; [done | |]; rewrite length_drop; subst n; lia.
    + rewrite (Z.min_r i) by lia.
      rewrite !drop_ge by (subst n; lia). by rewrite !take_nil.
Qed.

Lemma batchesFrom_done (i : Z) :
  Z.of_nat (length items) ≤ i → batchesFrom BATCH_SIZE items i = 0.
Proof.
  intros Hi. unfold batchesFrom. rewrite Z.max_r by lia.
  apply Z.div_small. lia.
Qed.

Lemma batchesFrom_step (i : Z) :
  i < Z.of_nat (length items) →
  batchesFrom BATCH_SIZE items i = 1 + batchesFrom BATCH_SIZE items (i + BATCH_SIZE).
Proof.
  intros Hi. unfold batchesFrom. rewrite (Z.max_l _ 0) by lia.
  destruct (Z.le_gt_cases (i + BATCH_SIZE) (Z.of_nat (length items))) as [Hin | Hout].
  - rewrite Z.max_l by lia.
    replace (Z.of_nat (length items) - i + BATCH_SIZE - 1)
      with (Z.of_nat (length items) - (i + BATCH_SIZE) + BATCH_SIZE - 1
            + 1 * BATCH_SIZE) by lia.
    rewrite Z.div_add by lia. lia.
  - rewrite Z.max_r by lia.
    rewrite (Z.div_small (0 + BATCH_SIZE - 1)) by lia.
    symmetry. apply (Z.div_unique _ _ 1 (Z.of_nat (length items) - i - 1)); lia.
Qed.

Lemma groupLoop_spec (fuel : nat) (i : Z) (batches : list (list A)) :
  0 ≤ i → Z.of_nat (length items) - i ≤ Z.of_nat fuel →
  ∃ more,
    groupLoop fuel BATCH_SIZE items i batches = Some (batches ++ more)
    ∧ concat more = drop (Z.to_nat i) items
    ∧ Z.of_nat (length more) = batchesFrom BATCH_SIZE items i
    ∧ ∀ k batch, more !! k = Some batch →
        (0 < length batch)%nat
        ∧ Z.of_nat (length batch) ≤ BATCH_SIZE
        ∧ ((S k < length more)%nat → Z.of_nat (length batch) = BATCH_SIZE)
        ∧ batch = take (Z.to_nat BATCH_SIZE)
                       (drop (Z.to_nat i + k * Z.to_nat BATCH_SIZE) items).
Proof.
  revert i batches. induction fuel as [| fuel IH]; intros i batches Hi Hfuel.
  - exists []. simpl. destruct (Z.ltb_spec i (Z.of_nat (length items))); [lia |].
    rewrite app_nil_r, batchesFrom_done by lia.
    rewrite drop_ge by lia. done.
  - simpl. destruct (Z.ltb_spec i (Z.of_nat (length items))) as [Hlt | Hge].
    + destruct (IH (i + BATCH_SIZE) (batches ++ [slice items i (i + BATCH_SIZE)]))
        as (more & Hrun & Hcat & Hlen & Hsizes); [lia | lia |].
      exists (slice items i (i + BATCH_SIZE) :: more).
      rewrite Hrun, <- app_assoc. simpl. split; [done |].
      rewrite slice_in_loop in * by done.
      split; [| split].
      * rewrite Hcat. replace (Z.to_nat (i + BATCH_SIZE))
          with (Z.to_nat i + Z.to_nat BATCH_SIZE)%nat by lia.
        rewrite <- drop_drop. apply take_drop.
      * rewrite batchesFrom_step by done. lia.
      * intros [| k] batch Hk; simpl in Hk.
        -- injection Hk as <-. rewrite length_take, length_drop.
           split; [lia |]. split; [lia |]. split.
           ++ simpl. intros Hmore.
              assert (0 < batchesFrom BATCH_SIZE items (i + BATCH_SIZE)) as Hpos by lia.
              destruct (Z.le_gt_cases (Z.of_nat (length items)) (i + BATCH_SIZE))
                as [Hout | Hin]; [| lia].
              rewrite batchesFrom_done in Hpos by done. lia.
           ++ by rewrite Nat.add_0_r.
        -- destruct (Hsizes k batch Hk) as (? & ? & Hfull & ->).
           split; [done |]. split; [done |]. split.
           ++ simpl. intros ?. apply Hfull. lia.
           ++ do 2 f_equal. lia.
    + exists []. rewrite app_nil_r, batchesFrom_done by lia.
      rewrite drop_ge by lia. done.
Qed.

End Grouping.

(** C8: for a positive batch size [B] the grouping loop of
    [processItemsInBatches] ends with [ceil(n / B)] batches whose
    concatenation is the input list; every batch is non-empty and has at
    most [B] items, and every batch but the last has exactly [B]. *)
Theorem groupIntoBatches_partitions {A} (BATCH_SIZE : Z) (items : list A) :
  0 < BATCH_SIZE →
  ∃ batches,
    groupIntoBatches BATCH_SIZE items = Some batches
    ∧ Z.of_nat (length batches)
      = (Z.of_nat (length items) + BATCH_SIZE - 1) / BATCH_SIZE
    ∧ concat batches = items
    ∧ ∀ k batch, batches !! k = Some batch →
        (0 < length batch)%nat
        ∧ Z.of_nat (length batch) ≤ BATCH_SIZE
        ∧ ((S k < length batches)%nat → Z.of_nat (length batch) = BATCH_SIZE)
        ∧ batch = take (Z.to_nat BATCH_SIZE) (drop (k * Z.to_nat BATCH_SIZE) items).
Proof.
  intros Hpos. unfold groupIntoBatches.
  destruct (groupLoop_spec BATCH_SIZE items Hpos (length items) 0 [])
    as (batches & Hrun & Hcat & Hlen & Hsizes); [lia | lia |].
  exists batches. simpl in Hrun, Hcat. split; [done |].
  split; [rewrite Hlen; unfold batchesFrom; f_equal; lia |].
  split; [done |].
  intros k batch Hk. destruct (Hsizes k batch Hk) as (Hne & Hle & Hfull & _).
  destruct (Hsizes k batch Hk) as (_ & _ & _ & Hpos').
  split; [done |]. split; [done |]. split; [done |]. exact Hpos'.
Qed.

Lemma groupIntoBatches_partitions_witness :
  ∃ batches,
    groupIntoBatches 3 [1; 2; 3; 4; 5; 6; 7]%nat = Some batches
    ∧ Z.of_nat (length batches) = 3
    ∧ concat batches = [1; 2; 3; 4; 5; 6; 7]%nat.
Proof.
  assert (Hpos : 0 < 3) by lia.
  destruct (groupIntoBatches_partitions 3 [1; 2; 3; 4; 5; 6; 7]%nat Hpos)
    as (batches & Hrun & Hlen & Hcat & _).
  exists batches. split; [exact Hrun |]. split; [exact Hlen | exact Hcat].
Defined.

(** ** Events of a run *)

Lemma requests_app {AM} (tr1 tr2 : list (event AM)) :
  requests (tr1 ++ tr2) = (requests tr1 + requests tr2)%nat.
Proof. unfold requests. by rewrite List.filter_app, length_app. Qed.

Lemma sleeps_app {AM} (tr1 tr2 : list (event AM)) :
  sleeps (tr1 ++ tr2) = sleeps tr1 ++ sleeps tr2.
Proof. unfold sleeps. apply omap_app. Qed.

(** Closes goals that count the events of an explicit list. *)
Ltac count_events :=
  rewrite ?requests_app, ?sleeps_app, ?length_app;
  unfold requests, sleeps; simpl; try done; lia.

(** ** Retrying mutator *)

Section Mutator.

Context (client : Client) (config : Config).
Context (tableName : string) (key : Item) (updateExpression : option UpdateSpec).

Abbreviation state := (state client).

(** The two ways the [try] block ends, told by what the SDK answers. *)
Lemma updateAttempt_marshall_throws (e : error) (s : state) :
  marshall client key = inl e →
  updateAttempt client tableName key updateExpression s = Some (Thrown e, s).
Proof.
  intros Hm. unfold updateAttempt, bind, marshallKey. rewrite Hm. done.
Qed.

Lemma updateAttempt_sends (marshalled : AttributeMap client) (w : World client)
    (tr : list (event (AttributeMap client))) :
  marshall client key = inr marshalled →
  let params := mkUpdateItemCommandInput tableName marshalled updateExpression "NONE" in
  updateAttempt client tableName key updateExpression (w, tr)
  = match sendUpdateItem client params w with
    | (inl e, w') => Some (Thrown e, (w', tr ++ [SentUpdateItem params]))
    | (inr _, w') => Some (Returned (Done true), (w', tr ++ [SentUpdateItem params]))
    end.
Proof.
  intros Hm params. unfold updateAttempt, bind, marshallKey. rewrite Hm.
  unfold ret at 1. unfold sendUpdateItemCommand. fold params.
  destruct (sendUpdateItem client params w) as [[e | []] w']; done.
Qed.

(** Either way it ends, having sent at most one request and slept not at
    all, and it yields [Done true] or throws. *)
Lemma updateAttempt_runs (w : World client) (tr : list (event (AttributeMap client))) :
  ∃ r w' added,
    updateAttempt client tableName key updateExpression (w, tr)
    = Some (r, (w', tr ++ added))
    ∧ (r = Returned (Done true) ∨ ∃ e, r = Thrown e)
    ∧ (requests added ≤ 1)%nat ∧ sleeps added = [].
Proof.
  destruct (marshall client key) as [e | marshalled] eqn:Hm.
  - exists (Thrown e), w, []. rewrite app_nil_r.
    split; [by apply updateAttempt_marshall_throws |]. split; [eauto |].
    split; [count_events | done].
  - rewrite (updateAttempt_sends marshalled w tr Hm).
    destruct (sendUpdateItem client _ w) as [[e | []] w'].
    + eexists (Thrown e), w', [_]. split; [done |]. split; [eauto |].
      split; [count_events | done].
    + eexists (Returned (Done true)), w', [_]. split; [done |]. split; [eauto |].
      split; [count_events | done].
Qed.

(** The backoff of a [catch]: one draw of [Math.random()], one timer. *)
Lemma backoff_then {A} (attempt : Z) (k : M client A) (w : World client)
    (tr : list (event (AttributeMap client))) :
  bind (backoffDelay client config attempt) (λ ms, bind (delay ms) (λ _, k)) (w, tr)
  = k ((mathRandom client w).2,
       tr ++ [Slept (calculateBackoffDelay attempt (inject_Z (INITIAL_DELAY config))
                                           (mathRandom client w).1)]).
Proof.
  unfold backoffDelay, bind, random, delay, ret.
  destruct (mathRandom client w) as [rnd w']. done.
Qed.

Variable maxRetries : Z.

Abbreviation loop := (λ fuel, updateLoop client config fuel tableName key updateExpression maxRetries).

Lemma updateLoop_exit (fuel : nat) (attempt : Z) (s : state) :
  maxRetries ≤ attempt → loop fuel attempt s = Some (Returned false, s).
Proof.
  intros Hge. destruct fuel; simpl;
    destruct (Z.ltb_spec attempt maxRetries); (lia || done).
Qed.

(** One pass of the loop whose request succeeds: [return true]. *)
Lemma updateLoop_success (fuel : nat) (attempt : Z) (s s' : state) :
  attempt < maxRetries →
  updateAttempt client tableName key updateExpression s = Some (Returned (Done true), s') →
  loop (S fuel) attempt s = Some (Returned true, s').
Proof.
  intros Hlt Hrun. simpl. destruct (Z.ltb_spec attempt maxRetries); [| lia].
  unfold bind at 1, tryCatch. by rewrite Hrun.
Qed.

(** One pass whose request is throttled while retries remain: backoff with
    the current attempt number, then the next attempt. *)
Lemma updateLoop_retry (fuel : nat) (attempt : Z) (s : state) (e : error)
    (w' : World client) (tr' : list (event (AttributeMap client))) :
  attempt < maxRetries - 1 →
  updateAttempt client tableName key updateExpression s = Some (Thrown e, (w', tr')) →
  isThrottle e = true →
  loop (S fuel) attempt s
  = loop fuel (attempt + 1)
      ((mathRandom client w').2,
       tr' ++ [Slept (calculateBackoffDelay attempt (inject_Z (INITIAL_DELAY config))
                                            (mathRandom client w').1)]).
Proof.
  intros Hlt Hrun Hthr. simpl. destruct (Z.ltb_spec attempt maxRetries); [| lia].
  unfold bind at 1, tryCatch. rewrite Hrun, Hthr.
  destruct (Z.ltb_spec attempt (maxRetries - 1)); [| lia]. simpl.
  pose proof (backoff_then attempt (ret (Continue (A := bool))) w' tr') as Hb.
  rewrite Hb. done.
Qed.

(** One pass whose request fails for good: the error is not a throttle, or
    no retry remains.  The [catch] returns [false]. *)
Lemma updateLoop_failure (fuel : nat) (attempt : Z) (s s' : state) (e : error) :
  attempt < maxRetries →
  updateAttempt client tableName key updateExpression s = Some (Thrown e, s') →
  isThrottle e = false ∨ maxRetries - 1 ≤ attempt →
  loop (S fuel) attempt s = Some (Returned false, s').
Proof.
  intros Hlt Hrun Hcase. simpl. destruct (Z.ltb_spec attempt maxRetries); [| lia].
  unfold bind at 1, tryCatch. rewrite Hrun.
  destruct Hcase as [-> | Hlast]; [done |].
  destruct (Z.ltb_spec attempt (maxRetries - 1)); [lia |].
  by rewrite andb_false_r.
Qed.

(** With fuel for the attempts that remain the loop returns, and it sends
    no more requests than attempts remain. *)
Lemma updateLoop_runs (fuel : nat) (attempt : Z) (w : World client)
    (tr : list (event (AttributeMap client))) :
  maxRetries - attempt ≤ Z.of_nat fuel →
  ∃ success w' added,
    loop fuel attempt (w, tr) = Some (Returned success, (w', tr ++ added))
    ∧ Z.of_nat (requests added) ≤ Z.max (maxRetries - attempt) 0
    ∧ Z.of_nat (length (sleeps added)) ≤ Z.max (maxRetries - attempt - 1) 0.
Proof.
  revert attempt w tr. induction fuel as [| fuel IH]; intros attempt w tr Hfuel.
  - exists false, w, []. rewrite app_nil_r.
    split; [apply updateLoop_exit; lia |]. count_events.
  - destruct (Z.le_gt_cases maxRetries attempt) as [Hge | Hlt].
    { exists false, w, []. rewrite app_nil_r.
      split; [by apply updateLoop_exit |]. count_events. }
    destruct (updateAttempt_runs w tr) as (r & w1 & added & Hrun & Hr & Hreq & Hsl).
    destruct Hr as [-> | [e ->]].
    + exists true, w1, added. split; [by apply updateLoop_success |].
      rewrite Hsl. simpl. lia.
    + destruct (isThrottle e) eqn:Hthr;
        [destruct (Z.lt_ge_cases attempt (maxRetries - 1)) as [Hmore | Hlast] |].
      * rewrite (updateLoop_retry fuel attempt _ e w1 _ Hmore Hrun Hthr).
        edestruct (IH (attempt + 1)) as (b & w2 & added2 & Hrest & Hreq2 & Hsl2);
          [lia |].
        eexists b, w2, (added ++ [Slept _] ++ added2).
        split; [rewrite Hrest; by rewrite <- !app_assoc |].
        rewrite !requests_app, !sleeps_app, !length_app, Hsl.
        unfold requests at 2, sleeps at 1. simpl. lia.
      * exists false, w1, added.
        split; [apply (updateLoop_failure fuel attempt _ _ e); auto; lia |].
        rewrite Hsl. simpl. lia.
      * exists false, w1, added.
        split; [apply (updateLoop_failure fuel attempt _ _ e); auto; lia |].
        rewrite Hsl. simpl. lia.
Qed.

End Mutator.

Section MutatorRuns.

Context (client : Client) (config : Config).
Context (tableName : string) (key : Item) (updateExpression : option UpdateSpec).

Lemma updateItemWithRetry_returns (maxRetries : Z) (w : World client)
    (tr : list (event (AttributeMap client))) :
  ∃ success w' added,
    updateItemWithRetry client config tableName key updateExpression maxRetries (w, tr)
    = Some (Returned success, (w', tr ++ added))
    ∧ Z.of_nat (requests added) ≤ Z.max maxRetries 0
    ∧ Z.of_nat (length (sleeps added)) ≤ Z.max (maxRetries - 1) 0.
Proof.
  unfold updateItemWithRetry.
  destruct (updateLoop_runs client config tableName key updateExpression maxRetries
              (Z.to_nat maxRetries) 0 w tr) as (b & w' & added & Hrun & Hreq & Hsl);
    [lia |].
  exists b, w', added. split; [done |].
  replace (maxRetries - 0) with maxRetries in * by lia. done.
Qed.

(** A table that throttles every update makes the loop use up its
    attempts: one request per attempt, a backoff between two attempts, and
    [false] at the end. *)
Lemma updateLoop_always_throttled (marshalled : AttributeMap client) (maxRetries : Z) :
  marshall client key = inr marshalled →
  (∀ params w, ∃ e w', sendUpdateItem client params w = (inl e, w')
                       ∧ isThrottle e = true) →
  ∀ (fuel : nat) (attempt : Z) w tr,
    maxRetries - attempt ≤ Z.of_nat fuel →
    ∃ w' added,
      updateLoop client config fuel tableName key updateExpression maxRetries
                 attempt (w, tr)
      = Some (Returned false, (w', tr ++ added))
      ∧ requests added = Z.to_nat (maxRetries - attempt)
      ∧ length (sleeps added) = Z.to_nat (maxRetries - attempt - 1).
Proof.
  intros Hm Hthrottle fuel. induction fuel as [| fuel IH]; intros attempt w tr Hfuel.
  - exists w, []. rewrite app_nil_r. split; [apply updateLoop_exit; lia |].
    count_events.
  - destruct (Z.le_gt_cases maxRetries attempt) as [Hge | Hlt].
    { exists w, []. rewrite app_nil_r. split; [by apply updateLoop_exit |].
      count_events. }
    pose proof (updateAttempt_sends client tableName key updateExpression
                  marshalled w tr Hm) as Hrun.
    simpl in Hrun.
    destruct (Hthrottle (mkUpdateItemCommandInput tableName marshalled
                           updateExpression "NONE") w) as (e & w1 & Hsend & Hthr).
    rewrite Hsend in Hrun.
    destruct (Z.lt_ge_cases attempt (maxRetries - 1)) as [Hmore | Hlast].
    + rewrite (updateLoop_retry client config tableName key updateExpression
                 maxRetries fuel attempt _ e w1 _ Hmore Hrun Hthr).
      edestruct (IH (attempt + 1)) as (w2 & added2 & Hrest & Hreq2 & Hsl2); [lia |].
      eexists w2, ([SentUpdateItem _; Slept _] ++ added2).
      split; [rewrite Hrest; by rewrite <- !app_assoc |].
      rewrite requests_app, sleeps_app, length_app, Hreq2, Hsl2.
      unfold requests, sleeps. simpl. lia.
    + eexists w1, [SentUpdateItem _].
      split; [apply (updateLoop_failure client config tableName key updateExpression
                       maxRetries fuel attempt _ _ e Hlt Hrun); by right |].
      unfold requests, sleeps. simpl. lia.
Qed.

End MutatorRuns.

(** C10: with [maxRetries = 0] the mutator returns [false] at once; the
    state of the table and the list of events are as before the call, so
    it has sent no request and awaited no timer. *)
Theorem updateItemWithRetry_zero_retries (client : Client) (config : Config)
    (tableName : string) (key : Item) (updateExpression : option UpdateSpec)
    (s : state client) :
  updateItemWithRetry client config tableName key updateExpression 0 s
  = Some (Returned false, s).
Proof. reflexivity. Qed.

(** C3: with [maxRetries = 3], a throttled first and second request and a
    successful third, the mutator returns [true] after three requests and
    two backoff timers, computed from attempt numbers 0 and 1.  In general a
    throttled request with retries left is followed by a backoff timer for
    the current attempt number and by the next attempt, and a call sends at
    most [maxRetries] requests and awaits at most [maxRetries - 1]
    timers. *)
Theorem updateItemWithRetry_retries_throttled (client : Client) (config : Config)
    (tableName : string) (key : Item) (updateExpression : option UpdateSpec) :
  (∀ marshalled e1 e2 w0 w1 w2 w3 w4 w5 r1 r2 tr,
     let params :=
       mkUpdateItemCommandInput tableName marshalled updateExpression "NONE" in
     let base := inject_Z (INITIAL_DELAY config) in
     marshall client key = inr marshalled →
     sendUpdateItem client params w0 = (inl e1, w1) → isThrottle e1 = true →
     mathRandom client w1 = (r1, w2) →
     sendUpdateItem client params w2 = (inl e2, w3) → isThrottle e2 = true →
     mathRandom client w3 = (r2, w4) →
     sendUpdateItem client params w4 = (inr (), w5) →
     updateItemWithRetry client config tableName key updateExpression 3 (w0, tr)
     = Some (Returned true,
             (w5, tr ++ [SentUpdateItem params;
                         Slept (calculateBackoffDelay 0 base r1);
                         SentUpdateItem params;
                         Slept (calculateBackoffDelay 1 base r2);
                         SentUpdateItem params])))
  ∧ (∀ maxRetries fuel attempt s e w' tr',
       attempt < maxRetries - 1 →
       updateAttempt client tableName key updateExpression s
       = Some (Thrown e, (w', tr')) →
       isThrottle e = true →
       updateLoop client config (S fuel) tableName key updateExpression
                  maxRetries attempt s
       = updateLoop client config fuel tableName key updateExpression
                    maxRetries (attempt + 1)
           ((mathRandom client w').2,
            tr' ++ [Slept (calculateBackoffDelay attempt
                             (inject_Z (INITIAL_DELAY config))
                             (mathRandom client w').1)]))
  ∧ (∀ maxRetries w tr,
       ∃ success w' added,
         updateItemWithRetry client config tableName key updateExpression
                             maxRetries (w, tr)
         = Some (Returned success, (w', tr ++ added))
         ∧ Z.of_nat (requests added) ≤ Z.max maxRetries 0
         ∧ Z.of_nat (length (sleeps added)) ≤ Z.max (maxRetries - 1) 0).
Proof.
  split; [| split].
  - intros marshalled e1 e2 w0 w1 w2 w3 w4 w5 r1 r2 tr params base
      Hm H1 Ht1 Hr1 H2 Ht2 Hr2 H3.
    unfold updateItemWithRetry. change (Z.to_nat 3) with 3%nat.
    pose proof (updateAttempt_sends client tableName key updateExpression
                  marshalled) as Hrun. simpl in Hrun. fold params in Hrun.
    erewrite updateLoop_retry; [| lia | by rewrite Hrun, H1 | done].
    rewrite Hr1. simpl fst. simpl snd.
    erewrite updateLoop_retry; [| lia | by rewrite Hrun, H2 | done].
    rewrite Hr2. simpl fst. simpl snd.
    erewrite updateLoop_success; [| lia | by rewrite Hrun, H3].
    by rewrite <- !app_assoc.
  - intros maxRetries fuel attempt s e w' tr'. apply updateLoop_retry.
  - intros maxRetries w tr. apply updateItemWithRetry_returns.
Qed.

(** ** Batch scheduler: running the batches *)

Lemma groupIntoBatches_concat {A} (BATCH_SIZE : Z) (items : list A) :
  0 < BATCH_SIZE →
  ∃ batches, groupIntoBatches BATCH_SIZE items = Some batches
             ∧ concat batches = items.
Proof.
  intros Hpos. unfold groupIntoBatches.
  destruct (groupLoop_spec BATCH_SIZE items Hpos (length items) 0 [])
    as (batches & Hrun & Hcat & _); [lia | lia |].
  exists batches. done.
Qed.

(** With a step that is not positive the index never reaches the length
    of a non-empty list: the grouping loop does not end. *)
Lemma groupLoop_stuck {A} (BATCH_SIZE : Z) (items : list A) (fuel : nat) (i : Z)
    (batches : list (list A)) :
  BATCH_SIZE ≤ 0 → i ≤ 0 → items ≠ [] →
  groupLoop fuel BATCH_SIZE items i batches = None.
Proof.
  intros Hneg Hi Hne. revert i batches Hi.
  assert (0 < Z.of_nat (length items)) by (destruct items; [done | simpl; lia]).
  induction fuel as [| fuel IH]; intros i batches Hi; simpl;
    destruct (Z.ltb_spec i (Z.of_nat (length items))); try lia; [done |].
  apply IH. lia.
Qed.

Lemma countResults_total (batchResults : list bool) (counts : nat * nat) :
  ((countResults batchResults counts).1 + (countResults batchResults counts).2
   = counts.1 + counts.2 + length batchResults)%nat.
Proof.
  unfold countResults. revert counts.
  induction batchResults as [| success rest IH]; intros [successCount errorCount].
  - simpl. lia.
  - simpl foldl. destruct success; rewrite IH; simpl; lia.
Qed.

Lemma filterItemsWithAttributes_returned (items selected : list Item)
    (attrs : list string) :
  filterItemsWithAttributes items attrs = Returned selected →
  selected `sublist_of` items ∧ (attrs ≠ [] → Forall plain selected).
Proof.
  intros Hrun.
  destruct (filterItemsWithAttributes_cases items attrs)
    as [[-> Hnone] | [(Hne & Hplain & Hsome) | (Hne & _ & Hthrown)]].
  - rewrite Hnone in Hrun. injection Hrun as <-.
    split; [apply sublist_nil_l | done].
  - rewrite Hsome in Hrun. injection Hrun as <-.
    split; [apply sublist_filter |]. intros _.
    apply Forall_forall. intros item [_ Hin]%list_elem_of_filter.
    by apply (proj1 (Forall_forall _ _) Hplain).
  - rewrite Hthrown in Hrun. discriminate.
Qed.

Lemma createUpdateExpression_thrown (attributesToRemove : list string)
    (item : Item) (e : error) :
  createUpdateExpression attributesToRemove item = Thrown e →
  e = notAFunction ∧ attributesToRemove ≠ [] ∧ ¬ plain item.
Proof.
  intros Hrun. destruct (decide (plain item)) as [Hplain | Hhidden].
  - rewrite (createUpdateExpression_plain _ _ Hplain) in Hrun. discriminate.
  - destruct attributesToRemove as [| attr rest]; [discriminate |].
    rewrite createUpdateExpression_hidden in Hrun by done.
    injection Hrun as <-. done.
Qed.

Section Scheduler.

Context (client : Client) (config : Config).
Context (tableName : string) (attributesToRemove : list string) (keySchema : KeySchema).

(** The invocation for one item returns what [updateItemWithRetry]
    returns, unless [createUpdateExpression] throws before any request. *)
Lemma processItem_outcome (item : Item) (s : state client) :
  ∃ r s',
    processItem client config tableName attributesToRemove keySchema item s
    = Some (r, s')
    ∧ ((∃ success, r = Returned success)
       ∨ (r = Thrown notAFunction ∧ attributesToRemove ≠ [] ∧ ¬ plain item)).
Proof.
  destruct s as [w tr]. unfold processItem. unfold bind at 1, call.
  destruct (createUpdateExpression attributesToRemove item) as [expr | e] eqn:Hexpr.
  - unfold ret at 1.
    match goal with
    | |- context [updateItemWithRetry _ _ _ ?k ?u ?m] =>
        destruct (updateItemWithRetry_returns client config tableName k u m w tr)
          as (success & w' & added & Hrun & _)
    end.
    exists (Returned success), (w', tr ++ added). unfold bind. rewrite Hrun. eauto.
  - apply createUpdateExpression_thrown in Hexpr as (-> & Hne & Hhidden).
    exists (Thrown notAFunction), (w, tr). split; [done |]. by right.
Qed.

Lemma processItem_returns (item : Item) :
  plain item →
  returns (processItem client config tableName attributesToRemove keySchema item).
Proof.
  intros Hplain s.
  destruct (processItem_outcome item s) as (r & s' & Hrun & [[b ->] | (_ & _ & Hhidden)]);
    [eauto | done].
Qed.

(** The join of a batch yields one result per invocation, unless one of
    them throws. *)
Lemma batch_outcome (batch : list Item) (s : state client) :
  ∃ r s',
    promiseAll (map (processItem client config tableName attributesToRemove keySchema)
                    batch) s
    = Some (r, s')
    ∧ ((∃ results, r = Returned results ∧ length results = length batch)
       ∨ (r = Thrown notAFunction ∧ attributesToRemove ≠ []
          ∧ Exists (λ item, ¬ plain item) batch)).
Proof.
  revert s. induction batch as [| item batch IH]; intros s.
  - exists (Returned []), s. split; [done |]. left. by exists [].
  - destruct (processItem_outcome item s)
      as (r1 & s1 & Hitem & [[success ->] | (-> & Hne & Hhidden)]).
    + destruct (IH s1) as (r & s' & Hrest & [(results & -> & Hlen) | (-> & Hne & Hex)]).
      * exists (Returned (success :: results)), s'. simpl. unfold bind.
        rewrite Hitem, Hrest. split; [done |]. left. eexists. split; [done |].
        simpl. by rewrite Hlen.
      * exists (Thrown notAFunction), s'. simpl. unfold bind.
        rewrite Hitem, Hrest. split; [done |]. right.
        split; [done |]. split; [done |]. by apply Exists_cons_tl.
    + exists (Thrown notAFunction), s1. simpl. unfold bind. rewrite Hitem.
      split; [done |]. right. split; [done |]. split; [done |].
      by apply Exists_cons_hd.
Qed.

Lemma batch_returns (batch : list Item) (s : state client) :
  Forall plain batch →
  ∃ results s',
    promiseAll (map (processItem client config tableName attributesToRemove keySchema)
                    batch) s
    = Some (Returned results, s')
    ∧ length results = length batch.
Proof.
  intros Hplain.
  destruct (batch_outcome batch s)
    as (r & s' & Hrun & [(results & -> & Hlen) | (_ & _ & Hex)]); [eauto |].
  apply Exists_exists in Hex as (item & Hin & Hhidden).
  exfalso. apply Hhidden. by apply (proj1 (Forall_forall _ _) Hplain).
Qed.

Lemma batchLoop_outcome (rest : list (list Item)) (batchIndex total : nat)
    (counts : nat * nat) (s : state client) :
  ∃ r s',
    batchLoop client config tableName attributesToRemove keySchema rest
              batchIndex total counts s
    = Some (r, s')
    ∧ ((∃ counts', r = Returned counts'
                   ∧ (counts'.1 + counts'.2
                      = counts.1 + counts.2 + length (concat rest))%nat)
       ∨ (r = Thrown notAFunction ∧ attributesToRemove ≠ []
          ∧ Exists (λ item, ¬ plain item) (concat rest))).
Proof.
  revert batchIndex counts s.
  induction rest as [| batch rest IH]; intros batchIndex counts s.
  - exists (Returned counts), s. split; [done |]. left. exists counts.
    split; [done |]. simpl. lia.
  - destruct (batch_outcome batch s)
      as (r1 & s1 & Hrun & [(results & -> & Hlen) | (-> & Hne & Hex)]).
    + simpl batchLoop. unfold bind at 1. rewrite Hrun.
      set (counts1 := countResults results counts).
      assert (∃ s2, (if Z.of_nat batchIndex <? Z.of_nat total - 1
                     then delay 200 else ret ()) s1 = Some (Returned (), s2))
        as [s2 Hpace].
      { destruct s1 as [w1 tr1]. destruct (_ <? _); eexists; reflexivity. }
      unfold bind. rewrite Hpace.
      destruct (IH (S batchIndex) counts1 s2)
        as (r & s' & Hrest & [(counts' & -> & Hsum) | (-> & Hne & Hex)]).
      * exists (Returned counts'), s'. split; [done |]. left. exists counts'.
        split; [done |]. rewrite Hsum. subst counts1. rewrite countResults_total.
        simpl. rewrite length_app. lia.
      * exists (Thrown notAFunction), s'. split; [done |]. right.
        split; [done |]. split; [done |]. simpl. apply Exists_app. by right.
    + exists (Thrown notAFunction), s1. simpl batchLoop. unfold bind at 1.
      rewrite Hrun. split; [done |]. right. split; [done |]. split; [done |].
      simpl. apply Exists_app. by left.
Qed.

(** With a positive batch size the scheduler ends, with counts that add
    up or with the error of an item that hides [hasOwnProperty]. *)
Lemma processItemsInBatches_outcome (items : list Item) (s : state client) :
  0 < BATCH_SIZE config →
  ∃ r s',
    processItemsInBatches client config items tableName attributesToRemove keySchema s
    = Some (r, s')
    ∧ ((∃ successCount errorCount,
          r = Returned (successCount, errorCount)
          ∧ (successCount + errorCount = length items)%nat)
       ∨ (r = Thrown notAFunction ∧ attributesToRemove ≠ []
          ∧ Exists (λ item, ¬ plain item) items)).
Proof.
  intros Hpos. unfold processItemsInBatches.
  destruct (groupIntoBatches_concat (BATCH_SIZE config) items Hpos)
    as (batches & -> & Hcat).
  destruct (batchLoop_outcome batches 0 (length batches) (0, 0)%nat s)
    as (r & s' & Hrun & Hcases).
  exists r, s'. split; [done |]. rewrite Hcat in Hcases.
  destruct Hcases as [([successCount errorCount] & -> & Hsum) | Hthrown]; [| by right].
  left. exists successCount, errorCount. split; [done |]. exact Hsum.
Qed.

Lemma processItemsInBatches_returns (items : list Item) (s : state client) :
  0 < BATCH_SIZE config → Forall plain items →
  ∃ successCount errorCount s',
    processItemsInBatches client config items tableName attributesToRemove keySchema s
    = Some (Returned (successCount, errorCount), s')
    ∧ (successCount + errorCount = length items)%nat.
Proof.
  intros Hpos Hplain.
  destruct (processItemsInBatches_outcome items s Hpos)
    as (r & s' & Hrun & [(sc & ec & -> & Hsum) | (_ & _ & Hex)]); [eauto |].
  apply Exists_exists in Hex as (item & Hin & Hhidden).
  exfalso. apply Hhidden. by apply (proj1 (Forall_forall _ _) Hplain).
Qed.

(** Whatever the batch size, a run of the scheduler that ends has
    returned counts that add up to the number of items, or has thrown the
    error of an item that hides [hasOwnProperty]. *)
Lemma processItemsInBatches_ends (items : list Item) (s s' : state client)
    (r : result (nat * nat)) :
  processItemsInBatches client config items tableName attributesToRemove keySchema s
  = Some (r, s') →
  (∃ successCount errorCount,
     r = Returned (successCount, errorCount)
     ∧ (successCount + errorCount = length items)%nat)
  ∨ (r = Thrown notAFunction ∧ attributesToRemove ≠ []
     ∧ Exists (λ item, ¬ plain item) items).
Proof.
  intros Hrun.
  destruct (Z.lt_ge_cases 0 (BATCH_SIZE config)) as [Hpos | Hneg].
  - destruct (processItemsInBatches_outcome items s Hpos) as (r1 & s1 & Hrun1 & Hcases).
    rewrite Hrun1 in Hrun. by injection Hrun as <- <-.
  - destruct items as [| item items].
    + injection Hrun as <- <-. left. exists 0%nat, 0%nat. done.
    + unfold processItemsInBatches, groupIntoBatches in Hrun.
      rewrite groupLoop_stuck in Hrun; done.
Qed.

End Scheduler.

(** C4: [updateItemWithRetry] never throws.  Every call returns a
    boolean; a pass of its loop whose request fails with an error that is
    not a throttle, or with a throttle when no retry remains, returns
    [false]; against a table that throttles every request the call returns
    [false] after [maxRetries] requests.  Hence no failure of an update
    aborts a batch: in a batch of items without an attribute named
    [hasOwnProperty] the join yields one result per item, whatever the
    table answers, and the only error that [processItemsInBatches] can end
    with is the [TypeError] that [createUpdateExpression] throws for an
    item with such an attribute, never an error of the table. *)
Theorem updateItemWithRetry_never_throws (client : Client) (config : Config)
    (tableName : string) :
  (∀ key updateExpression maxRetries s,
     ∃ success s',
       updateItemWithRetry client config tableName key updateExpression maxRetries s
       = Some (Returned success, s'))
  ∧ (∀ key updateExpression maxRetries fuel attempt s s' e,
       attempt < maxRetries →
       updateAttempt client tableName key updateExpression s = Some (Thrown e, s') →
       isThrottle e = false ∨ maxRetries - 1 ≤ attempt →
       updateLoop client config (S fuel) tableName key updateExpression
                  maxRetries attempt s
       = Some (Returned false, s'))
  ∧ (∀ key updateExpression marshalled maxRetries w tr,
       marshall client key = inr marshalled →
       (∀ params w, ∃ e w', sendUpdateItem client params w = (inl e, w')
                            ∧ isThrottle e = true) →
       ∃ w' added,
         updateItemWithRetry client config tableName key updateExpression
                             maxRetries (w, tr)
         = Some (Returned false, (w', tr ++ added))
         ∧ requests added = Z.to_nat maxRetries)
  ∧ (∀ attributesToRemove keySchema batch s,
       Forall plain batch →
       ∃ results s',
         promiseAll
           (map (processItem client config tableName attributesToRemove keySchema)
                batch) s
         = Some (Returned results, s')
         ∧ length results = length batch)
  ∧ (∀ items attributesToRemove keySchema s e s',
       processItemsInBatches client config items tableName attributesToRemove
                             keySchema s
       = Some (Thrown e, s') →
       e = notAFunction ∧ attributesToRemove ≠ []
       ∧ Exists (λ item, ¬ plain item) items).
Proof.
  split; [| split; [| split; [| split]]].
  - intros key updateExpression maxRetries [w tr].
    destruct (updateItemWithRetry_returns client config tableName key
                updateExpression maxRetries w tr) as (success & w' & added & Hrun & _).
    eauto.
  - intros key updateExpression maxRetries fuel attempt s s' e.
    apply updateLoop_failure.
  - intros key updateExpression marshalled maxRetries w tr Hm Hthrottle.
    destruct (updateLoop_always_throttled client config tableName key
                updateExpression marshalled maxRetries Hm Hthrottle
                (Z.to_nat maxRetries) 0 w tr) as (w' & added & Hrun & Hreq & _);
      [lia |].
    exists w', added. split; [exact Hrun |].
    rewrite Hreq. f_equal. lia.
  - intros attributesToRemove keySchema batch s. apply batch_returns.
  - intros items attributesToRemove keySchema s e s' Hrun.
    apply processItemsInBatches_ends in Hrun
      as [(? & ? & [=] & _) | ([= ->] & Hne & Hex)].
    done.
Qed.

(** C1: the counts that [processItemsInBatches] returns add up to the
    number of items it was given: whatever the batch size, a run that
    returns has returned such counts, and with a positive batch size it
    returns them for every list of items without an attribute named
    [hasOwnProperty].  When [main] prints its final summary, the items it
    updated are the result of the filter on the scanned items, a
    subsequence of them, so that
    succeeded + failed = needing update ≤ scanned. *)
Theorem summary_counts_add_up (client : Client) (config : Config) :
  (∀ items tableName attributesToRemove keySchema s successCount errorCount s',
     processItemsInBatches client config items tableName attributesToRemove
                           keySchema s
     = Some (Returned (successCount, errorCount), s') →
     (successCount + errorCount = length items)%nat)
  ∧ (∀ items tableName attributesToRemove keySchema s,
       0 < BATCH_SIZE config → Forall plain items →
       ∃ successCount errorCount s',
         processItemsInBatches client config items tableName attributesToRemove
                               keySchema s
         = Some (Returned (successCount, errorCount), s')
         ∧ (successCount + errorCount = length items)%nat)
  ∧ (∀ fuel s summary s',
       main client config fuel s = Some (Returned (Completed summary), s') →
       ∃ allItems itemsToUpdate s1 keySchema,
         let tableName := default "" (TABLE_NAME config) in
         scanAllItems client config fuel tableName s = Some (Returned allItems, s1)
         ∧ filterItemsWithAttributes allItems (ATTRIBUTES_TO_REMOVE config)
           = Returned itemsToUpdate
         ∧ processItemsInBatches client config itemsToUpdate tableName
                                 (ATTRIBUTES_TO_REMOVE config) keySchema s1
           = Some (Returned (succeeded summary, failed summary), s')
         ∧ itemsToUpdate `sublist_of` allItems
         ∧ totalScanned summary = length allItems
         ∧ needingUpdate summary = length itemsToUpdate
         ∧ (succeeded summary + failed summary = needingUpdate summary)%nat
         ∧ (needingUpdate summary ≤ totalScanned summary)%nat).
Proof.
  split; [| split].
  - intros items tableName attributesToRemove keySchema s successCount errorCount s' Hrun.
    apply processItemsInBatches_ends in Hrun
      as [(sc & ec & [= -> ->] & Hsum) | ([=] & _)].
    exact Hsum.
  - intros items tableName attributesToRemove keySchema s Hpos Hplain.
    by apply processItemsInBatches_returns.
  - intros fuel s summary s' Hmain. unfold main, tryCatch in Hmain.
    destruct (negb (truthyString (TABLE_NAME config))); [discriminate |].
    destruct (negb (truthyString (PARTITION_KEY config))); [discriminate |].
    destruct (length (ATTRIBUTES_TO_REMOVE config) =? 0)%nat; [discriminate |].
    unfold getTableKeySchema in Hmain. unfold bind at 1 in Hmain. unfold ret at 1 in Hmain.
    unfold bind at 1 in Hmain.
    destruct (scanAllItems client config fuel _ s) as [[[allItems | e] s1] |] eqn:Hscan;
      [| discriminate | discriminate].
    destruct (length allItems =? 0)%nat; [discriminate |].
    unfold bind at 1, call in Hmain.
    destruct (filterItemsWithAttributes allItems (ATTRIBUTES_TO_REMOVE config))
      as [itemsToUpdate | e] eqn:Hfilter; [| discriminate].
    unfold ret at 1 in Hmain.
    destruct (length itemsToUpdate =? 0)%nat; [discriminate |].
    unfold bind in Hmain.
    match type of Hmain with
    | context [processItemsInBatches _ _ ?its ?t ?a ?k ?st] =>
        destruct (processItemsInBatches client config its t a k st)
          as [[[results | e] s2] |] eqn:Hrun; [| discriminate | discriminate]
    end.
    injection Hmain as <- <-. simpl.
    destruct (processItemsInBatches_ends _ _ _ _ _ _ _ _ _ Hrun)
      as [(successCount & errorCount & [= ->] & Hsum) | ([=] & _)].
    eexists allItems, itemsToUpdate, s1, _. split; [done |]. split; [done |].
    split; [exact Hrun |].
    destruct (filterItemsWithAttributes_returned _ _ _ Hfilter) as [Hsub _].
    split; [done |]. split; [done |]. split; [done |]. split; [done |].
    by apply sublist_length.
Qed.

(** ** Paginated scanner *)

Section Scanner.

Context (client : Client) (config : Config) (tableName : string).

Abbreviation trace := (list (event (AttributeMap client))).

(** A pass whose request is answered: the page is appended; with a
    continuation key the loop paces 50 ms and goes on from that key, and
    without one it returns the items. *)
Lemma scanLoop_answered (fuel : nat) (items : list Item)
    (lastEvaluatedKey : option (AttributeMap client)) (scanCount : nat)
    (w w' : World client) (tr : trace)
    (response : ScanCommandOutput (AttributeMap client)) :
  let params := mkScanCommandInput tableName lastEvaluatedKey in
  sendScan client params w = (inr response, w') →
  scanLoop client config (S fuel) tableName items lastEvaluatedKey scanCount (w, tr)
  = match LastEvaluatedKey response with
    | Some next =>
        scanLoop client config fuel tableName
                 (received client items scanCount response).1 (Some next)
                 (received client items scanCount response).2
                 (w', (tr ++ [SentScan params]) ++ [Slept 50])
    | None =>
        Some (Returned (received client items scanCount response).1,
              (w', tr ++ [SentScan params]))
    end.
Proof.
  intros params Hsend. simpl. unfold bind at 1, tryCatch, scanPage.
  unfold bind at 1, sendScanCommand. fold params. rewrite Hsend.
  unfold received. destruct (Items response) as [page |];
    destruct (LastEvaluatedKey response) as [next |]; reflexivity.
Qed.

(** A pass whose request is throttled: one backoff timer, computed for
    attempt number 1, and then the test of the loop on the key as it was.
    A key left from the page before makes the loop ask for the same page
    again; on the first page there is none and the loop ends. *)
Lemma scanLoop_throttled (fuel : nat) (items : list Item)
    (lastEvaluatedKey : option (AttributeMap client)) (scanCount : nat)
    (w w' : World client) (tr : trace) (e : error) :
  let params := mkScanCommandInput tableName lastEvaluatedKey in
  sendScan client params w = (inl e, w') →
  isThrottle e = true →
  let s' := ((mathRandom client w').2,
             (tr ++ [SentScan params])
             ++ [Slept (calculateBackoffDelay 1 (inject_Z (INITIAL_DELAY config))
                                              (mathRandom client w').1)]) in
  scanLoop client config (S fuel) tableName items lastEvaluatedKey scanCount (w, tr)
  = match lastEvaluatedKey with
    | Some _ =>
        scanLoop client config fuel tableName items lastEvaluatedKey scanCount s'
    | None => Some (Returned items, s')
    end.
Proof.
  intros params Hsend Hthr s'. simpl. unfold bind at 1, tryCatch, scanPage.
  unfold bind at 1, sendScanCommand. fold params. rewrite Hsend, Hthr.
  rewrite (backoff_then client config 1
             (ret (items, lastEvaluatedKey, scanCount)) w' (tr ++ [SentScan params])).
  unfold ret at 1. fold s'. by destruct lastEvaluatedKey.
Qed.

(** A pass whose request fails with any other error throws it. *)
Lemma scanLoop_error (fuel : nat) (items : list Item)
    (lastEvaluatedKey : option (AttributeMap client)) (scanCount : nat)
    (w w' : World client) (tr : trace) (e : error) :
  let params := mkScanCommandInput tableName lastEvaluatedKey in
  sendScan client params w = (inl e, w') →
  isThrottle e = false →
  scanLoop client config (S fuel) tableName items lastEvaluatedKey scanCount (w, tr)
  = Some (Thrown e, (w', tr ++ [SentScan params])).
Proof.
  intros params Hsend Hthr. simpl. unfold bind at 1, tryCatch, scanPage.
  unfold bind at 1, sendScanCommand. fold params. by rewrite Hsend, Hthr.
Qed.

(** The two cases of a throttled request, apart. *)
Lemma scanLoop_retries_page (fuel : nat) (items : list Item)
    (key : AttributeMap client) (scanCount : nat)
    (w w' : World client) (tr : trace) (e : error) :
  let params := mkScanCommandInput tableName (Some key) in
  sendScan client params w = (inl e, w') →
  isThrottle e = true →
  scanLoop client config (S fuel) tableName items (Some key) scanCount (w, tr)
  = scanLoop client config fuel tableName items (Some key) scanCount
      ((mathRandom client w').2,
       (tr ++ [SentScan params])
       ++ [Slept (calculateBackoffDelay 1 (inject_Z (INITIAL_DELAY config))
                                        (mathRandom client w').1)]).
Proof.
  intros params Hsend Hthr.
  exact (scanLoop_throttled fuel items (Some key) scanCount w w' tr e Hsend Hthr).
Qed.

Lemma scanAllItems_throttled_at_start (fuel : nat) (w w' : World client)
    (tr : trace) (e : error) :
  let params := mkScanCommandInput tableName None in
  sendScan client params w = (inl e, w') →
  isThrottle e = true →
  scanAllItems client config (S fuel) tableName (w, tr)
  = Some (Returned [],
          ((mathRandom client w').2,
           (tr ++ [SentScan params])
           ++ [Slept (calculateBackoffDelay 1 (inject_Z (INITIAL_DELAY config))
                                            (mathRandom client w').1)])).
Proof.
  intros params Hsend Hthr.
  exact (scanLoop_throttled fuel [] None 0 w w' tr e Hsend Hthr).
Qed.

End Scanner.

(** C9: when the first request is answered with a page of 100 items and a
    continuation key and the second, made from that key, with a page of 47
    items and no key, [scanAllItems] returns the 147 items, those of the
    first page before those of the second, after two requests and one
    timer, the 50 ms pacing between them. *)
Theorem scanAllItems_two_pages (client : Client) (config : Config)
    (tableName : string) (fuel : nat)
    (page1 page2 : list (AttributeMap client)) (next : AttributeMap client)
    (w0 w1 w2 : World client) (tr : list (event (AttributeMap client))) :
  sendScan client (mkScanCommandInput tableName None) w0
  = (inr (mkScanCommandOutput (Some page1) (Some next)), w1) →
  sendScan client (mkScanCommandInput tableName (Some next)) w1
  = (inr (mkScanCommandOutput (Some page2) None), w2) →
  length page1 = 100%nat → length page2 = 47%nat →
  ∃ items added,
    scanAllItems client config (S (S fuel)) tableName (w0, tr)
    = Some (Returned items, (w2, tr ++ added))
    ∧ items = map (unmarshall client) page1 ++ map (unmarshall client) page2
    ∧ length items = 147%nat
    ∧ added = [SentScan (mkScanCommandInput tableName None);
               Slept 50;
               SentScan (mkScanCommandInput tableName (Some next))]
    ∧ sleeps added = [50%Q]
    ∧ requests added = 2%nat.
Proof.
  intros Hfirst Hsecond Hlen1 Hlen2.
  eexists _, _. split; [| split; [reflexivity | split; [| split; [reflexivity |]]]].
  - unfold scanAllItems.
    rewrite (scanLoop_answered client config tableName _ _ _ _ _ _ _ _ Hfirst).
    simpl LastEvaluatedKey. cbv iota.
    rewrite (scanLoop_answered client config tableName _ _ _ _ _ _ _ _ Hsecond).
    simpl. by rewrite <- !app_assoc.
  - rewrite length_app, !length_map, Hlen1, Hlen2. done.
  - done.
Qed.

(** ** Runs on scripted tables *)

Import Scripted.

Lemma updateItemWithRetry_retries_throttled_witness :
  ∃ w' added,
    updateItemWithRetry client (config ["old"] 3) "devices" (clean 1)
      removeOld 3
      (mkWorld [] [inl throttled; inl throttled; inr ()] [1 # 2; 1 # 4], [])
    = Some (Returned true, (w', added))
    ∧ requests added = 3%nat ∧ length (sleeps added) = 2%nat.
Proof.
  pose proof (updateItemWithRetry_retries_throttled client (config ["old"] 3)
                "devices" (clean 1) removeOld)
    as [Hscenario _].
  specialize (Hscenario (clean 1) throttled throttled
    (mkWorld [] [inl throttled; inl throttled; inr ()] [1 # 2; 1 # 4])
    (mkWorld [] [inl throttled; inr ()] [1 # 2; 1 # 4])
    (mkWorld [] [inl throttled; inr ()] [1 # 4])
    (mkWorld [] [inr ()] [1 # 4])
    (mkWorld [] [inr ()] [])
    (mkWorld [] [] [])
    (1 # 2)%Q (1 # 4)%Q []
    eq_refl eq_refl eq_refl eq_refl eq_refl eq_refl eq_refl eq_refl).
  eexists _, _. split; [exact Hscenario |]. split; reflexivity.
Defined.

Lemma updateItemWithRetry_never_throws_witness :
  updateLoop client (config ["old"] 3) 1 "devices" (clean 1) None 3 2
             (mkWorld [] [inl throttled] [], [])
  = Some (Returned false,
          (mkWorld [] [] [],
           [SentUpdateItem (mkUpdateItemCommandInput "devices" (clean 1) None "NONE")])).
Proof.
  pose proof (updateItemWithRetry_never_throws client (config ["old"] 3) "devices")
    as (_ & Hfails & _).
  apply (Hfails (clean 1) None 3 0%nat 2 _ _ throttled).
  - lia.
  - reflexivity.
  - right. lia.
Defined.

(** The run of [main] on the table of three items. *)
Lemma main_threeItems :
  ∃ s', main client (config ["old"] 5) 4 (threeItems, [])
        = Some (Returned (Completed (mkSummary 3 2 1 1)), s').
Proof.
  assert (Hout : outcome (main client (config ["old"] 5) 4 (threeItems, []))
                 = Some (Returned (Completed (mkSummary 3 2 1 1))))
    by (vm_compute; reflexivity).
  destruct (main client (config ["old"] 5) 4 (threeItems, [])) as [[r s'] |];
    [| discriminate].
  injection Hout as ->. by exists s'.
Qed.

Lemma summary_counts_add_up_witness :
  ∃ summary s',
    main client (config ["old"] 5) 4 (threeItems, [])
    = Some (Returned (Completed summary), s')
    ∧ (totalScanned summary, needingUpdate summary) = (3, 2)%nat
    ∧ (succeeded summary + failed summary = needingUpdate summary)%nat
    ∧ (needingUpdate summary ≤ totalScanned summary)%nat.
Proof.
  destruct main_threeItems as [s' Hrun].
  exists (mkSummary 3 2 1 1), s'. split; [exact Hrun |]. split; [reflexivity |].
  destruct (proj2 (proj2 (summary_counts_add_up client (config ["old"] 5)))
              4%nat (threeItems, []) (mkSummary 3 2 1 1) s' Hrun)
    as (allItems & itemsToUpdate & s1 & keySchema & _ & _ & _ & _ & _ & _ & Hsum & Hle).
  split; [exact Hsum | exact Hle].
Defined.

Lemma scanAllItems_two_pages_witness :
  ∃ items added,
    scanAllItems client (config ["old"] 5) 2 "devices"
      (twoPages, [])
    = Some (Returned items, (mkWorld [] [] [], added))
    ∧ length items = 147%nat
    ∧ sleeps added = [50%Q].
Proof.
  destruct (scanAllItems_two_pages client (config ["old"] 5) "devices" 0
              (page 0 100) (page 100 47) (clean 99)
              twoPages
              (mkWorld [inr (mkScanCommandOutput (Some (page 100 47)) None)] [] [])
              (mkWorld [] [] []) [])
    as (items & added & Hrun & _ & Hlen & _ & Hsleeps & _).
  - reflexivity.
  - reflexivity.
  - vm_compute. reflexivity.
  - vm_compute. reflexivity.
  - exists items, added. split; [exact Hrun |]. split; [exact Hlen | exact Hsleeps].
Defined.

(** C2 (the code at the failing input): the first request of a scan is
    throttled.  [scanAllItems] awaits the backoff timer and returns no
    items; it does not send the request again, although the table had a
    page to give. *)
Theorem scanAllItems_first_page_throttled :
  scanAllItems client (config ["old"] 5) 10 "devices"
    (mkWorld [inl throttled;
              inr (mkScanCommandOutput (Some (page 0 3)) None)] [] [], [])
  = Some (Returned [],
          (mkWorld [inr (mkScanCommandOutput (Some (page 0 3)) None)] [] [],
           [SentScan (mkScanCommandInput "devices" None);
            Slept (calculateBackoffDelay 1 100 0)])).
Proof. reflexivity. Qed.

(** * Further properties of the script *)

(** ** Backoff calculator: growth *)

Lemma exponential_term_monotone (a b : Z) (baseDelay : Q) :
  a ≤ b → (0 <= baseDelay)%Q → (baseDelay * 2 ^ a <= baseDelay * 2 ^ b)%Q.
Proof.
  intros Hab Hbase.
  assert (Hpow : (2 ^ a <= 2 ^ b)%Q) by (apply Qpower_le_compat_l; [done | discriminate]).
  rewrite !(Qmult_comm baseDelay). by apply Qmult_le_compat_r.
Qed.

Lemma exponential_term_doubles (a : Z) (baseDelay : Q) :
  (baseDelay * 2 ^ (a + 1) == 2 * (baseDelay * 2 ^ a))%Q.
Proof.
  rewrite Qpower_plus by discriminate. change (2 ^ 1)%Q with 2%Q. ring.
Qed.

(** Each call draws its own jitter, so a later attempt can sleep less
    than an earlier one: 1099 ms at attempt 0, 200 ms at attempt 1. *)
Example calculateBackoffDelay_can_decrease :
  (calculateBackoffDelay 0 100 (999 # 1000) == 1099)%Q
  ∧ (calculateBackoffDelay 1 100 0 == 200)%Q.
Proof. split; reflexivity. Qed.

(** X1: two calls draw their own jitter, so the delay can decrease from
    one attempt to the next while the exponential term is below the jitter
    range.  For a base that is not negative, once the term [base * 2^a]
    has reached 1000 ms every later attempt sleeps at least as long as
    attempt [a], whatever the two draws in [0, 1); with the default base
    of 100 ms that is from attempt 4 on.  The delay is the cap of 30000 ms
    as soon as the term reaches the cap; with the default base that is
    from attempt 9 on. *)
Theorem calculateBackoffDelay_grows_to_cap (baseDelay : Q) :
  (0 <= baseDelay)%Q →
  (∀ a b rndA rndB, a < b → (1000 <= baseDelay * 2 ^ a)%Q →
     (rndA < 1)%Q → (0 <= rndB)%Q →
     (calculateBackoffDelay a baseDelay rndA
      <= calculateBackoffDelay b baseDelay rndB)%Q)
  ∧ (∀ a b rndA rndB, 4 ≤ a → a < b → (rndA < 1)%Q → (0 <= rndB)%Q →
       (calculateBackoffDelay a 100 rndA <= calculateBackoffDelay b 100 rndB)%Q)
  ∧ (∀ a rnd, (0 <= rnd)%Q → (30000 <= baseDelay * 2 ^ a)%Q →
       (calculateBackoffDelay a baseDelay rnd == 30000)%Q)
  ∧ (∀ a rnd, (0 <= rnd)%Q → 9 ≤ a → (calculateBackoffDelay a 100 rnd == 30000)%Q).
Proof.
  intros Hbase.
  assert (Hlater : ∀ base a b rndA rndB,
             (0 <= base)%Q → a < b → (1000 <= base * 2 ^ a)%Q →
             (rndA < 1)%Q → (0 <= rndB)%Q →
             (calculateBackoffDelay a base rndA <= calculateBackoffDelay b base rndB)%Q).
  { intros base a b rndA rndB Hb Hab Hterm HA HB. unfold calculateBackoffDelay.
    apply Q.min_le_compat_r.
    assert (Hnext : (base * 2 ^ (a + 1) <= base * 2 ^ b)%Q)
      by (apply exponential_term_monotone; [lia | done]).
    rewrite exponential_term_doubles in Hnext.
    generalize dependent (base * 2 ^ b)%Q. generalize dependent (base * 2 ^ a)%Q.
    intros termA HtermA termB HtermB. lra. }
  assert (Hcap : ∀ base a rnd, (0 <= rnd)%Q → (30000 <= base * 2 ^ a)%Q →
                   (calculateBackoffDelay a base rnd == 30000)%Q).
  { intros base a rnd Hrnd Hterm. unfold calculateBackoffDelay. apply Q.min_r.
    generalize dependent (base * 2 ^ a)%Q. intros term Hterm. lra. }
  split; [| split; [| split]].
  - intros a b rndA rndB. by apply Hlater.
  - intros a b rndA rndB Ha Hab. apply Hlater; [discriminate | done |].
    eapply Qle_trans; [| apply (exponential_term_monotone 4 a 100 Ha); discriminate].
    discriminate.
  - intros a rnd. apply Hcap.
  - intros a rnd Hrnd Ha. apply Hcap; [done |].
    eapply Qle_trans; [| apply (exponential_term_monotone 9 a 100 Ha); discriminate].
    discriminate.
Qed.

Lemma calculateBackoffDelay_grows_to_cap_witness :
  (calculateBackoffDelay 4 100 (999 # 1000) <= calculateBackoffDelay 5 100 0)%Q
  ∧ (calculateBackoffDelay 12 100 (1 # 2) == 30000)%Q.
Proof.
  assert (Hbase : (0 <= 100)%Q) by discriminate.
  destruct (calculateBackoffDelay_grows_to_cap 100 Hbase)
    as (_ & Hlater & _ & Hdefault).
  split.
  - apply Hlater; [lia | lia | reflexivity | discriminate].
  - apply Hdefault; [discriminate | lia].
Defined.

(** ** Change filter: selection and removal expression together *)

Lemma present_none (attributesToRemove : list string) (item : Item) :
  length (filter (λ attr, is_Some (item !! attr)) attributesToRemove) = 0%nat
  ↔ ¬ Exists (λ attr, is_Some (item !! attr)) attributesToRemove.
Proof.
  rewrite length_zero_iff_nil, Exists_exists. split.
  - intros Hnil (attr & Hin & Hattr).
    assert (Hp : attr ∈ filter (λ attr, is_Some (item !! attr)) attributesToRemove)
      by (by apply list_elem_of_filter).
    rewrite Hnil in Hp. by apply elem_of_nil in Hp.
  - intros Hnone.
    destruct (filter (λ attr, is_Some (item !! attr)) attributesToRemove)
      as [| attr rest] eqn:Hp; [done |].
    exfalso. apply Hnone. exists attr.
    assert (Hin : attr ∈ attr :: rest) by apply list_elem_of_here.
    rewrite <- Hp in Hin. apply list_elem_of_filter in Hin as [? ?]. done.
Qed.

(** X2: when the filter returns, it has kept exactly the items for which
    [createUpdateExpression] gives an expression: for every item it
    returns the function returns an expression, and for every item it
    drops the function returns [null]. *)
Theorem filter_keeps_items_with_expression (items selected : list Item)
    (attributesToRemove : list string) :
  filterItemsWithAttributes items attributesToRemove = Returned selected →
  Forall (λ item, ∃ spec, createUpdateExpression attributesToRemove item
                          = Returned (Some spec))
         selected
  ∧ ∀ item, item ∈ items → item ∉ selected →
      createUpdateExpression attributesToRemove item = Returned None.
Proof.
  intros Hrun.
  destruct (filterItemsWithAttributes_cases items attributesToRemove)
    as [[-> Hnone] | [(Hne & Hplain & Hsome) | (Hne & _ & Hthrown)]].
  - rewrite Hnone in Hrun. injection Hrun as <-. split; [constructor | done].
  - rewrite Hsome in Hrun. injection Hrun as <-.
    assert (Hitem : ∀ item, item ∈ items → plain item)
      by (by apply Forall_forall).
    split.
    + apply Forall_forall. intros item [Hpass Hin]%list_elem_of_filter.
      rewrite (createUpdateExpression_plain _ _ (Hitem item Hin)).
      destruct (Nat.eqb_spec
                  (length (filter (λ attr, is_Some (item !! attr)) attributesToRemove))
                  0) as [Hlen | Hlen]; [| eauto].
      by apply present_none in Hlen.
    + intros item Hin Hout.
      rewrite (createUpdateExpression_plain _ _ (Hitem item Hin)).
      destruct (Nat.eqb_spec
                  (length (filter (λ attr, is_Some (item !! attr)) attributesToRemove))
                  0) as [Hlen | Hlen]; [done |].
      exfalso. apply Hout. apply list_elem_of_filter. split; [| done].
      destruct (decide (Exists (λ attr, is_Some (item !! attr)) attributesToRemove))
        as [Hex | Hno]; [done |].
      by apply present_none in Hno.
  - rewrite Hthrown in Hrun. discriminate.
Qed.

Lemma filter_keeps_items_with_expression_witness :
  createUpdateExpression ["old"] (clean 2) = Returned None
  ∧ ∃ spec, createUpdateExpression ["old"] (stale 1 "x") = Returned (Some spec).
Proof.
  destruct (filter_keeps_items_with_expression [stale 1 "x"; clean 2] [stale 1 "x"]
              ["old"] eq_refl) as [Hkept Hdropped].
  split.
  - apply Hdropped.
    + apply list_elem_of_further, list_elem_of_here.
    + intros Hin%list_elem_of_singleton. discriminate (f_equal (λ m, m !! "old") Hin).
  - apply Forall_cons in Hkept as [Hfirst _]. exact Hfirst.
Defined.

Lemma assignNames_size (attrs : list string) (index : nat)
    (names : gmap string string) :
  (∀ j, (index ≤ j)%nat → names !! placeholder j = None) →
  size (assignNames attrs index names) = (size names + length attrs)%nat.
Proof.
  revert index names. induction attrs as [| attr rest IH]; intros index names Hfresh.
  - simpl. lia.
  - simpl. rewrite IH.
    + rewrite map_size_insert_None by (apply Hfresh; lia). lia.
    + intros j Hj. rewrite lookup_insert_ne; [apply Hfresh; lia |].
      intros Heq%placeholder_inj. lia.
Qed.

(** X3: the name map of a removal expression has one entry per attribute
    of the list that the item has, repeated ones counted as often as they
    are listed; when the list has no repetition, two placeholders never
    stand for the same attribute. *)
Theorem createUpdateExpression_names (attributesToRemove : list string)
    (item : Item) (spec : UpdateSpec) :
  createUpdateExpression attributesToRemove item = Returned (Some spec) →
  size (ExpressionAttributeNames spec)
  = length (filter (λ attr, is_Some (item !! attr)) attributesToRemove)
  ∧ (NoDup attributesToRemove →
     ∀ i j attr,
       ExpressionAttributeNames spec !! placeholder i = Some attr →
       ExpressionAttributeNames spec !! placeholder j = Some attr →
       i = j).
Proof.
  intros Hrun. apply createUpdateExpression_returned in Hrun.
  set (present := filter (λ attr, is_Some (item !! attr)) attributesToRemove) in *.
  destruct (length present =? 0)%nat; [discriminate |].
  injection Hrun as ->. simpl. split.
  - rewrite assignNames_size by (intros; apply lookup_empty).
    by rewrite map_size_empty.
  - intros Hnodup i j attr. rewrite !assignNames_placeholder.
    apply NoDup_lookup. by apply NoDup_filter.
Qed.

Lemma createUpdateExpression_names_witness :
  ∃ spec,
    createUpdateExpression ["old"; "id"; "gone"] (stale 1 "x") = Returned (Some spec)
    ∧ size (ExpressionAttributeNames spec) = 2%nat.
Proof.
  destruct (createUpdateExpression ["old"; "id"; "gone"] (stale 1 "x"))
    as [[spec |] | e] eqn:Hspec; [| discriminate | discriminate].
  exists spec. split; [reflexivity |].
  destruct (createUpdateExpression_names ["old"; "id"; "gone"] (stale 1 "x") spec Hspec)
    as [Hsize _].
  rewrite Hsize. reflexivity.
Defined.

(** A repeated attribute is named by two placeholders. *)
Example repeated_attribute :
  ∃ spec,
    createUpdateExpression ["old"; "old"] (stale 1 "x") = Returned (Some spec)
    ∧ UpdateExpression spec = "REMOVE #attr0, #attr1"
    ∧ ExpressionAttributeNames spec !! "#attr0" = Some "old"
    ∧ ExpressionAttributeNames spec !! "#attr1" = Some "old".
Proof. eexists. split; [reflexivity |]. repeat split; reflexivity. Qed.

(** ** Retrying mutator: the events of a call *)

Lemma retryEvents_requests {AM} (params : UpdateItemCommandInput AM) (base : Q)
    (first : Z) (rnds : list Q) :
  requests (retryEvents params base first rnds) = S (length rnds).
Proof.
  revert first. induction rnds as [| rnd rest IH]; intros first; [done |].
  change (S (requests (retryEvents params base (first + 1) rest)) = S (S (length rest))).
  by rewrite IH.
Qed.

Lemma retryEvents_sleeps {AM} (params : UpdateItemCommandInput AM) (base : Q)
    (first : Z) (rnds : list Q) :
  sleeps (retryEvents params base first rnds)
  = imap (λ i rnd, calculateBackoffDelay (first + Z.of_nat i) base rnd) rnds.
Proof.
  revert first. induction rnds as [| rnd rest IH]; intros first; [done |].
  change (calculateBackoffDelay first base rnd
          :: sleeps (retryEvents params base (first + 1) rest)
          = calculateBackoffDelay (first + Z.of_nat 0) base rnd
            :: imap (λ i rnd, calculateBackoffDelay (first + Z.of_nat (S i)) base rnd) rest).
  rewrite IH. simpl Z.of_nat. rewrite Z.add_0_r. f_equal. apply imap_ext. intros i r _. f_equal. lia.
Qed.

Lemma retryEvents_sleeps_capped {AM} (params : UpdateItemCommandInput AM)
    (base : Q) (first : Z) (rnds : list Q) :
  Forall (λ ms, (ms <= 30000)%Q) (sleeps (retryEvents params base first rnds)).
Proof.
  revert first. induction rnds as [| rnd rest IH]; intros first.
  - constructor.
  - change (Forall (λ ms, (ms <= 30000)%Q)
              (calculateBackoffDelay first base rnd
               :: sleeps (retryEvents params base (first + 1) rest))).
    constructor; [apply Q.le_min_r | apply IH].
Qed.

Section MutatorEvents.

Context (client : Client) (config : Config).
Context (tableName : string) (key : Item) (updateExpression : option UpdateSpec).
Context (marshalled : AttributeMap client).
Hypothesis marshall_key : marshall client key = inr marshalled.

Let params : UpdateItemCommandInput (AttributeMap client) :=
  mkUpdateItemCommandInput tableName marshalled updateExpression "NONE".
Let base : Q := inject_Z (INITIAL_DELAY config).

Lemma updateLoop_events (maxRetries : Z) (fuel : nat) (attempt : Z)
    (w : World client) (tr : list (event (AttributeMap client))) :
  attempt < maxRetries → maxRetries - attempt ≤ Z.of_nat fuel →
  ∃ success w' rnds,
    updateLoop client config fuel tableName key updateExpression maxRetries
               attempt (w, tr)
    = Some (Returned success, (w', tr ++ retryEvents params base attempt rnds))
    ∧ attempt + Z.of_nat (length rnds) < maxRetries.
Proof.
  revert attempt w tr. induction fuel as [| fuel IH]; intros attempt w tr Hlt Hfuel;
    [lia |].
  pose proof (updateAttempt_sends client tableName key updateExpression
                marshalled w tr marshall_key) as Hrun.
  simpl in Hrun. fold params in Hrun.
  destruct (sendUpdateItem client params w) as [[e | []] w1].
  - destruct (isThrottle e) eqn:Hthr;
      [destruct (Z.lt_ge_cases attempt (maxRetries - 1)) as [Hmore | Hlast] |].
    + rewrite (updateLoop_retry client config tableName key updateExpression
                 maxRetries fuel attempt _ e w1 _ Hmore Hrun Hthr).
      destruct (mathRandom client w1) as [rnd w2]. simpl fst. simpl snd.
      edestruct (IH (attempt + 1) w2) as (success & w' & rnds & Hrest & Hbound);
        [lia | lia |].
      exists success, w', (rnd :: rnds). rewrite Hrest.
      split; [by rewrite <- !app_assoc | simpl; lia].
    + exists false, w1, []. split; [| simpl; lia].
      apply (updateLoop_failure client config tableName key updateExpression
               maxRetries fuel attempt _ _ e Hlt Hrun). by right.
    + exists false, w1, []. split; [| simpl; lia].
      apply (updateLoop_failure client config tableName key updateExpression
               maxRetries fuel attempt _ _ e Hlt Hrun). by left.
  - exists true, w1, []. split; [| simpl; lia].
    by apply updateLoop_success.
Qed.

End MutatorEvents.

(** X4: a call of [updateItemWithRetry] with a key that marshals and
    [maxRetries > 0] sends a request, then as long as it is throttled and
    retries remain awaits the backoff for attempt 0, 1, 2, ... and sends
    the request again: its events are a request and a backoff per retry and
    a last request, with fewer retries than [maxRetries], one request more
    than backoffs, and no backoff above 30000 ms. *)
Theorem updateItemWithRetry_events (client : Client) (config : Config)
    (tableName : string) (key : Item) (updateExpression : option UpdateSpec)
    (marshalled : AttributeMap client) (maxRetries : Z)
    (w : World client) (tr : list (event (AttributeMap client))) :
  marshall client key = inr marshalled → 0 < maxRetries →
  let params := mkUpdateItemCommandInput tableName marshalled updateExpression "NONE" in
  let base := inject_Z (INITIAL_DELAY config) in
  ∃ success w' rnds,
    updateItemWithRetry client config tableName key updateExpression maxRetries (w, tr)
    = Some (Returned success, (w', tr ++ retryEvents params base 0 rnds))
    ∧ Z.of_nat (length rnds) < maxRetries
    ∧ requests (retryEvents params base 0 rnds) = S (length rnds)
    ∧ sleeps (retryEvents params base 0 rnds)
      = imap (λ i rnd, calculateBackoffDelay (Z.of_nat i) base rnd) rnds
    ∧ Forall (λ ms, (ms <= 30000)%Q) (sleeps (retryEvents params base 0 rnds)).
Proof.
  intros Hm Hpos params base. unfold updateItemWithRetry.
  destruct (updateLoop_events client config tableName key updateExpression
              marshalled Hm maxRetries (Z.to_nat maxRetries) 0 w tr)
    as (success & w' & rnds & Hrun & Hbound); [lia | lia |].
  exists success, w', rnds. split; [exact Hrun |]. split; [lia |].
  split; [apply retryEvents_requests |].
  split; [apply retryEvents_sleeps | apply retryEvents_sleeps_capped].
Qed.

Lemma updateItemWithRetry_events_witness :
  ∃ success w' rnds,
    updateItemWithRetry client (config ["old"] 3) "devices" (clean 1) None 3
      (mkWorld [] [inl throttled; inr ()] [1 # 2], [])
    = Some (Returned success,
            (w', retryEvents (mkUpdateItemCommandInput "devices" (clean 1) None "NONE")
                             100 0 rnds))
    ∧ Z.of_nat (length rnds) < 3.
Proof.
  assert (Hpos : 0 < 3) by lia.
  destruct (updateItemWithRetry_events client (config ["old"] 3) "devices" (clean 1)
              None (clean 1) 3 (mkWorld [] [inl throttled; inr ()] [1 # 2]) []
              eq_refl Hpos)
    as (success & w' & rnds & Hrun & Hbound & _).
  exists success, w', rnds. split; [exact Hrun | exact Hbound].
Defined.

(** X5: when [marshall] rejects the key with an error that is not a
    throttle, [updateItemWithRetry] returns [false] without sending a
    request or awaiting a timer, whatever [maxRetries] is. *)
Theorem updateItemWithRetry_unmarshallable_key (client : Client) (config : Config)
    (tableName : string) (key : Item) (updateExpression : option UpdateSpec)
    (maxRetries : Z) (e : error) (s : state client) :
  marshall client key = inl e → isThrottle e = false →
  updateItemWithRetry client config tableName key updateExpression maxRetries s
  = Some (Returned false, s).
Proof.
  intros Hm Hthr. unfold updateItemWithRetry.
  destruct (Z.le_gt_cases maxRetries 0) as [Hle | Hpos].
  - apply updateLoop_exit. done.
  - destruct (Z.to_nat maxRetries) as [| fuel] eqn:Hfuel; [lia |].
    apply (updateLoop_failure client config tableName key updateExpression
             maxRetries fuel 0 s s e); [lia | | by left].
    by apply updateAttempt_marshall_throws.
Qed.

Lemma updateItemWithRetry_unmarshallable_key_witness :
  updateItemWithRetry Steady.strict (config ["old"] 5) "devices"
    {[ "id" := VUndefined ]} None 5 ((), [])
  = Some (Returned false, ((), [])).
Proof.
  apply (updateItemWithRetry_unmarshallable_key Steady.strict (config ["old"] 5)
           "devices" {[ "id" := VUndefined ]} None 5 Steady.undefinedValue).
  - reflexivity.
  - reflexivity.
Defined.

(** ** Paginated scanner: whole scans *)

Section Scans.

Context (client : Client) (config : Config) (tableName : string).

Lemma answersPages_nonempty (w w' : World client)
    (key : option (AttributeMap client))
    (pages : list (option (list (AttributeMap client)))) :
  answersPages client tableName w key pages w' → (0 < length pages)%nat.
Proof. destruct 1; simpl; lia. Qed.

Lemma received_items (items : list Item) (scanCount : nat)
    (page : option (list (AttributeMap client)))
    (next : option (AttributeMap client)) :
  (received client items scanCount (mkScanCommandOutput page next)).1
  = items ++ pageItems client page.
Proof.
  unfold received, pageItems. destruct page; simpl; [done |].
  by rewrite app_nil_r.
Qed.

Lemma scanLoop_pages (w w' : World client) (key : option (AttributeMap client))
    (pages : list (option (list (AttributeMap client)))) :
  answersPages client tableName w key pages w' →
  ∀ (fuel : nat) (items : list Item) (scanCount : nat)
    (tr : list (event (AttributeMap client))),
    (length pages ≤ fuel)%nat →
    ∃ added,
      scanLoop client config fuel tableName items key scanCount (w, tr)
      = Some (Returned (items ++ concat (pageItems client <$> pages)),
              (w', tr ++ added))
      ∧ requests added = length pages
      ∧ sleeps added = replicate (length pages - 1) 50%Q.
Proof.
  induction 1 as [w key page w' Hsend | w key page next w1 pages w' Hsend Hrest IH];
    intros fuel items scanCount tr Hfuel;
    (destruct fuel as [| fuel]; [simpl in Hfuel; lia |]).
  - rewrite (scanLoop_answered client config tableName _ _ _ _ _ _ _ _ Hsend).
    simpl LastEvaluatedKey. cbv iota. rewrite received_items.
    eexists [_]. simpl. rewrite app_nil_r. done.
  - rewrite (scanLoop_answered client config tableName _ _ _ _ _ _ _ _ Hsend).
    simpl LastEvaluatedKey. cbv iota. rewrite received_items.
    edestruct (IH fuel) as (added & Hrun & Hreq & Hsl); [simpl in Hfuel; lia |].
    eexists ([_; Slept 50] ++ added). rewrite Hrun.
    split; [simpl; by rewrite <- !app_assoc |].
    rewrite requests_app, sleeps_app, Hreq, Hsl.
    pose proof (answersPages_nonempty _ _ _ _ Hrest) as Hne.
    split; [done |]. simpl length.
    replace (S (length pages) - 1)%nat with (S (length pages - 1)) by lia. done.
Qed.

(** A throttle keeps the scan on the page of the key it has. *)
Lemma scanLoop_jammed (key : AttributeMap client) (fuel : nat) :
  (∀ params w, ∃ e w', sendScan client params w = (inl e, w')
                       ∧ isThrottle e = true) →
  ∀ (items : list Item) (scanCount : nat) (s : state client),
    scanLoop client config fuel tableName items (Some key) scanCount s = None.
Proof.
  intros Hjam. induction fuel as [| fuel IH]; intros items scanCount [w tr]; [done |].
  destruct (Hjam (mkScanCommandInput tableName (Some key)) w) as (e & w' & Hsend & Hthr).
  rewrite (scanLoop_throttled client config tableName _ _ _ _ _ _ _ _ Hsend Hthr).
  apply IH.
Qed.

End Scans.

(** X6: when the table answers the requests of a scan with a sequence of
    pages, each but the last with a continuation key, [scanAllItems]
    returns the items of all pages in the order of the pages (a response
    without [Items] adds none), after one request per page and one pacing
    timer of 50 ms between two pages. *)
Theorem scanAllItems_pages (client : Client) (config : Config) (tableName : string)
    (fuel : nat) (pages : list (option (list (AttributeMap client))))
    (w w' : World client) (tr : list (event (AttributeMap client))) :
  answersPages client tableName w None pages w' →
  (length pages ≤ fuel)%nat →
  ∃ added,
    scanAllItems client config fuel tableName (w, tr)
    = Some (Returned (concat (pageItems client <$> pages)), (w', tr ++ added))
    ∧ requests added = length pages
    ∧ sleeps added = replicate (length pages - 1) 50%Q.
Proof.
  intros Hpages Hfuel. unfold scanAllItems.
  exact (scanLoop_pages client config tableName w w' None pages Hpages fuel [] 0 tr Hfuel).
Qed.

(** A table of 7 items that answers a scan in three pages, the second of
    them without [Items]. *)
Lemma threePages_answers :
  answersPages client "devices"
    (mkWorld [inr (mkScanCommandOutput (Some (page 0 4)) (Some (clean 3)));
              inr (mkScanCommandOutput None (Some (clean 3)));
              inr (mkScanCommandOutput (Some (page 4 3)) None)] [] [])
    None [Some (page 0 4); None; Some (page 4 3)] (mkWorld [] [] []).
Proof.
  eapply answers_more; [reflexivity |].
  eapply answers_more; [reflexivity |].
  apply answers_last. reflexivity.
Qed.

Lemma scanAllItems_pages_witness :
  ∃ added,
    scanAllItems client (config ["old"] 5) 3 "devices"
      (mkWorld [inr (mkScanCommandOutput (Some (page 0 4)) (Some (clean 3)));
                inr (mkScanCommandOutput None (Some (clean 3)));
                inr (mkScanCommandOutput (Some (page 4 3)) None)] [] [], [])
    = Some (Returned (page 0 4 ++ page 4 3), (mkWorld [] [] [], added))
    ∧ requests added = 3%nat
    ∧ sleeps added = [50%Q; 50%Q].
Proof.
  assert (Hfuel : (length [Some (page 0 4); None; Some (page 4 3)] ≤ 3)%nat)
    by (simpl; lia).
  destruct (scanAllItems_pages client (config ["old"] 5) "devices" 3 _ _ _ []
              threePages_answers Hfuel) as (added & Hrun & Hreq & Hsl).
  exists added. split; [| split; [exact Hreq | exact Hsl]].
  etrans; [exact Hrun | reflexivity].
Defined.

(** X7: a request for a page after the first (the scan holds a
    continuation key) that is throttled is sent again with the same key
    after one backoff timer, computed for attempt number 1 whatever the
    number of throttles before; the items and the key are as they were. *)
Theorem scanLoop_throttled_later_page (client : Client) (config : Config)
    (tableName : string) (fuel : nat) (items : list Item)
    (key : AttributeMap client) (scanCount : nat) (w w1 w2 : World client)
    (tr : list (event (AttributeMap client))) (e : error) (rnd : Q) :
  sendScan client (mkScanCommandInput tableName (Some key)) w = (inl e, w1) →
  isThrottle e = true →
  mathRandom client w1 = (rnd, w2) →
  scanLoop client config (S fuel) tableName items (Some key) scanCount (w, tr)
  = scanLoop client config fuel tableName items (Some key) scanCount
      (w2, tr ++ [SentScan (mkScanCommandInput tableName (Some key));
                  Slept (calculateBackoffDelay 1 (inject_Z (INITIAL_DELAY config)) rnd)]).
Proof.
  intros Hsend Hthr Hrnd.
  rewrite (scanLoop_throttled client config tableName _ _ _ _ _ _ _ _ Hsend Hthr).
  rewrite Hrnd. simpl. by rewrite <- app_assoc.
Qed.

Lemma scanLoop_throttled_later_page_witness :
  scanLoop client (config ["old"] 5) 2 "devices" (page 0 4) (Some (clean 3)) 1
    (mkWorld [inl throttled; inr (mkScanCommandOutput (Some (page 4 3)) None)]
             [] [1 # 2], [])
  = scanLoop client (config ["old"] 5) 1 "devices" (page 0 4) (Some (clean 3)) 1
      (mkWorld [inr (mkScanCommandOutput (Some (page 4 3)) None)] [] [],
       [SentScan (mkScanCommandInput "devices" (Some (clean 3)));
        Slept (calculateBackoffDelay 1 100 (1 # 2))]).
Proof.
  apply (scanLoop_throttled_later_page client (config ["old"] 5) "devices" 1
           (page 0 4) (clean 3) 1 _
           (mkWorld [inr (mkScanCommandOutput (Some (page 4 3)) None)] [] [1 # 2])
           _ [] throttled (1 # 2)).
  - reflexivity.
  - reflexivity.
  - reflexivity.
Defined.

(** X8: the scanner has no bound on its retries: against a table that
    throttles every scan request, a scan that holds a continuation key
    does not end, however many requests it may send. *)
Theorem scanLoop_retries_without_bound (client : Client) (config : Config)
    (tableName : string) (key : AttributeMap client) :
  (∀ params w, ∃ e w', sendScan client params w = (inl e, w')
                       ∧ isThrottle e = true) →
  ∀ (fuel : nat) (items : list Item) (scanCount : nat) (s : state client),
    scanLoop client config fuel tableName items (Some key) scanCount s = None.
Proof.
  intros Hjam fuel. by apply scanLoop_jammed.
Qed.

Lemma scanLoop_retries_without_bound_witness :
  scanLoop Steady.jammed (config ["old"] 5) 1000 "devices" (page 0 4)
           (Some (clean 3)) 1 ((), [])
  = None.
Proof.
  apply (scanLoop_retries_without_bound Steady.jammed (config ["old"] 5) "devices"
           (clean 3)).
  intros params w. exists throttled, w. split; reflexivity.
Defined.

(** X9: a scan request that fails with an error that is not a throttle
    makes the scan throw that error at once, on any page: the items
    retrieved so far are not returned and no timer is awaited. *)
Theorem scanLoop_throws_other_errors (client : Client) (config : Config)
    (tableName : string) (fuel : nat) (items : list Item)
    (lastEvaluatedKey : option (AttributeMap client)) (scanCount : nat)
    (w w' : World client) (tr : list (event (AttributeMap client))) (e : error) :
  sendScan client (mkScanCommandInput tableName lastEvaluatedKey) w = (inl e, w') →
  isThrottle e = false →
  scanLoop client config (S fuel) tableName items lastEvaluatedKey scanCount (w, tr)
  = Some (Thrown e, (w', tr ++ [SentScan (mkScanCommandInput tableName lastEvaluatedKey)])).
Proof.
  intros Hsend Hthr.
  exact (scanLoop_error client config tableName fuel items lastEvaluatedKey
           scanCount w w' tr e Hsend Hthr).
Qed.

Lemma scanLoop_throws_other_errors_witness :
  scanLoop client (config ["old"] 5) 1 "devices" (page 0 4) (Some (clean 3)) 1
    (mkWorld [inl denied] [] [], [])
  = Some (Thrown denied,
          (mkWorld [] [] [],
           [SentScan (mkScanCommandInput "devices" (Some (clean 3)))])).
Proof.
  apply (scanLoop_throws_other_errors client (config ["old"] 5) "devices" 0
           (page 0 4) (Some (clean 3)) 1 (mkWorld [inl denied] [] [])
           (mkWorld [] [] []) [] denied).
  - reflexivity.
  - reflexivity.
Defined.

(** ** Batch scheduler: the key of an item *)

Lemma setProperty_lookup (obj : Item) (name k : string) (v : value) :
  setProperty obj name v !! k
  = if bool_decide (k = name)
       && negb (bool_decide (name = "__proto__")
                && negb (bool_decide (is_Some (obj !! name))))
    then Some v else obj !! k.
Proof.
  unfold setProperty.
  destruct (bool_decide (name = "__proto__")
            && negb (bool_decide (is_Some (obj !! name)))).
  - by rewrite andb_false_r.
  - rewrite andb_true_r. case_bool_decide as Hk.
    + subst. apply lookup_insert_eq.
    + by apply lookup_insert_ne.
Qed.

Lemma setProperty_proto_ignored (pk : string) (v v' : value) :
  pk ≠ "__proto__" →
  setProperty {[ pk := v ]} "__proto__" v' = ({[ pk := v ]} : Item).
Proof.
  intros Hne. unfold setProperty.
  rewrite bool_decide_eq_true_2 by done.
  rewrite bool_decide_eq_false_2; [done |].
  rewrite lookup_singleton_ne by done. by intros [? ?].
Qed.

Lemma setProperty_ordinary (obj : Item) (name : string) (v : value) :
  name ≠ "__proto__" → setProperty obj name v = <[name := v]> obj.
Proof.
  intros Hne. unfold setProperty. by rewrite bool_decide_eq_false_2.
Qed.

(** X10: the callback of [processItemsInBatches] builds the removal
    expression and then calls [updateItemWithRetry] with a key object made
    from the item by property reads [item[name]], which see the members of
    [Object.prototype] too.  The key always has the partition key
    attribute, with what the item gives for it, and no attribute besides
    the partition key and the sort key of the schema.  A sort key
    attribute other than the partition key and [__proto__] is in the key
    exactly when its name is not empty and the item gives a truthy value
    for it; with an empty name, with the name [__proto__], or with a value
    of [0], [""], [false], [null] or [undefined], the key is the partition
    key attribute alone.  A sort key named like a member of
    [Object.prototype] that the item does not have is in the key, with the
    inherited member as its value.  Without a sort key in the schema the
    key is the partition key attribute alone. *)
Theorem processItem_key (client : Client) (config : Config) (tableName : string)
    (attributesToRemove : list string) (keySchema : KeySchema) (item : Item) :
  let pk := partitionKey keySchema in
  let key := primaryKey keySchema item in
  processItem client config tableName attributesToRemove keySchema item
  = bind (call (createUpdateExpression attributesToRemove item))
         (λ updateExpression,
            bind (updateItemWithRetry client config tableName key updateExpression
                    (MAX_RETRIES config))
                 (λ success, ret success))
  ∧ key !! pk = Some (getProperty item pk)
  ∧ (∀ k, is_Some (key !! k) → k = pk ∨ sortKey keySchema = Some k)
  ∧ (∀ sk, sortKey keySchema = Some sk → sk ≠ pk → sk ≠ "__proto__" →
       ∀ v, key !! sk = Some v
            ↔ sk ≠ "" ∧ getProperty item sk = v ∧ truthy v = true)
  ∧ (∀ sk, sortKey keySchema = Some sk → sk ≠ pk →
       sk = "" ∨ sk = "__proto__" ∨ truthy (getProperty item sk) = false →
       key = {[ pk := getProperty item pk ]})
  ∧ (∀ sk, sortKey keySchema = Some sk → sk ≠ pk → sk ≠ "__proto__" →
       sk ∈ objectPrototype → item !! sk = None →
       key !! sk = Some (VInherited sk))
  ∧ (sortKey keySchema = None → key = {[ pk := getProperty item pk ]}).
Proof.
  intros pk key. split; [reflexivity |].
  subst key. unfold primaryKey. fold pk.
  destruct (sortKey keySchema) as [sk |] eqn:Hsk.
  - unfold truthyString.
    destruct (negb (String.eqb sk "") && truthy (getProperty item sk)) eqn:Hcond.
    + apply andb_true_iff in Hcond as [Hname Hval].
      apply negb_true_iff, String.eqb_neq in Hname.
      split; [| split; [| split; [| split; [| split; [| done]]]]].
      * rewrite setProperty_lookup.
        destruct (bool_decide (pk = sk) && _) eqn:Hset.
        -- apply andb_true_iff in Hset as [->%bool_decide_eq_true _]. done.
        -- apply lookup_singleton_eq.
      * intros k [v Hk]. rewrite setProperty_lookup in Hk.
        destruct (bool_decide (k = sk) && _) eqn:Hset.
        -- apply andb_true_iff in Hset as [->%bool_decide_eq_true _]. by right.
        -- apply lookup_singleton_Some in Hk as [<- _]. by left.
      * intros sk' [= <-] Hne Hproto v.
        rewrite setProperty_ordinary by done. rewrite lookup_insert_eq. split.
        -- by intros [= <-].
        -- by intros (_ & <- & _).
      * intros sk' [= <-] Hne [-> | [-> | Hfalsy]]; [done | | congruence].
        apply setProperty_proto_ignored. done.
      * intros sk' [= <-] Hne Hproto Hin Hown.
        rewrite setProperty_ordinary by done. rewrite lookup_insert_eq.
        unfold getProperty. rewrite Hown. by rewrite bool_decide_eq_true_2.
    + split; [apply lookup_singleton_eq |].
      split; [| split; [| split; [done | split; [| done]]]].
      * intros k [v Hk]. apply lookup_singleton_Some in Hk as [<- _]. by left.
      * intros sk' [= <-] Hne Hproto v. rewrite lookup_singleton_ne by done.
        split; [done |]. intros (Hname & <- & Htruthy). exfalso.
        apply andb_false_iff in Hcond as [Hcond | Hcond].
        -- apply negb_false_iff, String.eqb_eq in Hcond. done.
        -- congruence.
      * intros sk' [= <-] Hne Hproto Hin Hown. exfalso.
        apply andb_false_iff in Hcond as [Hcond | Hcond].
        -- apply negb_false_iff, String.eqb_eq in Hcond. subst sk.
           apply list_elem_of_In in Hin. simpl in Hin.
           repeat (destruct Hin as [Hin | Hin]; [discriminate |]). done.
        -- unfold getProperty in Hcond. rewrite Hown in Hcond.
           by rewrite bool_decide_eq_true_2 in Hcond.
  - split; [apply lookup_singleton_eq |].
    split; [| split; [done | split; [done | split; [done | done]]]].
    intros k [v Hk]. apply lookup_singleton_Some in Hk as [<- _]. by left.
Qed.

(** An item with sort key value [0] is addressed by its partition key
    alone. *)
Example primaryKey_falsy_sort_key :
  primaryKey {| partitionKey := "id"; sortKey := Some "version" |}
             (<["version" := VNum 0]> (clean 7))
  = clean 7.
Proof. reflexivity. Qed.

(** With a sort key named [toString] every item gets the inherited
    method as the sort key value of its key. *)
Example primaryKey_inherited_sort_key :
  primaryKey {| partitionKey := "id"; sortKey := Some "toString" |} (clean 7)
  = <["toString" := VInherited "toString"]> (clean 7).
Proof. reflexivity. Qed.

(** ** Batch scheduler: a table that accepts every update *)

Lemma countResults_all_succeeded (n : nat) (counts : nat * nat) :
  countResults (replicate n true) counts = ((counts.1 + n)%nat, counts.2).
Proof.
  unfold countResults. revert counts. induction n as [| n IH]; intros [a b]; simpl.
  - by rewrite Nat.add_0_r.
  - rewrite IH. simpl. f_equal. lia.
Qed.

Lemma page_plain (first : Z) (count : nat) : Forall plain (page first count).
Proof.
  apply Forall_forall. intros item (k & -> & _)%list_elem_of_fmap.
  by apply lookup_singleton_ne.
Qed.

Section Accepting.

Context (client : Client) (config : Config).
Context (tableName : string) (attributesToRemove : list string) (keySchema : KeySchema).
Hypothesis accepts : ∀ params w, ∃ w', sendUpdateItem client params w = (inr (), w').
Hypothesis retries_pos : 0 < MAX_RETRIES config.

(** An item without an attribute named [hasOwnProperty] whose key
    [marshall] converts. *)
Let ready (item : Item) : Prop :=
  plain item ∧ ∃ marshalled, marshall client (primaryKey keySchema item) = inr marshalled.

Lemma processItem_accepted (item : Item) (w : World client)
    (tr : list (event (AttributeMap client))) :
  ready item →
  ∃ w' params,
    processItem client config tableName attributesToRemove keySchema item (w, tr)
    = Some (Returned true, (w', tr ++ [SentUpdateItem params])).
Proof.
  intros [Hplain [marshalled Hm]].
  change (processItem client config tableName attributesToRemove keySchema item)
    with (bind (call (createUpdateExpression attributesToRemove item))
               (λ updateExpression,
                  bind (updateItemWithRetry client config tableName
                          (primaryKey keySchema item) updateExpression
                          (MAX_RETRIES config))
                       (λ success, ret success))).
  unfold bind at 1, call.
  destruct (createUpdateExpression attributesToRemove item)
    as [updateExpression | e] eqn:Hexpr;
    [| by apply createUpdateExpression_thrown in Hexpr as (_ & _ & Hhidden)].
  unfold ret at 1.
  pose proof (updateAttempt_sends client tableName (primaryKey keySchema item)
                updateExpression marshalled w tr Hm) as Hrun.
  simpl in Hrun.
  destruct (accepts (mkUpdateItemCommandInput tableName marshalled
                       updateExpression "NONE") w) as [w' Hsend].
  rewrite Hsend in Hrun.
  exists w', (mkUpdateItemCommandInput tableName marshalled updateExpression "NONE").
  unfold bind, updateItemWithRetry.
  destruct (Z.to_nat (MAX_RETRIES config)) as [| fuel] eqn:Hfuel; [lia |].
  rewrite (updateLoop_success client config tableName _ _ (MAX_RETRIES config)
             fuel 0 _ _ retries_pos Hrun).
  done.
Qed.

Lemma batch_accepted (batch : list Item) (w : World client)
    (tr : list (event (AttributeMap client))) :
  Forall ready batch →
  ∃ w' added,
    promiseAll (map (processItem client config tableName attributesToRemove keySchema)
                    batch) (w, tr)
    = Some (Returned (replicate (length batch) true), (w', tr ++ added))
    ∧ requests added = length batch ∧ sleeps added = [].
Proof.
  revert w tr. induction batch as [| item batch IH]; intros w tr Hready.
  - exists w, []. by rewrite app_nil_r.
  - apply Forall_cons in Hready as [Hitem Hbatch].
    destruct (processItem_accepted item w tr Hitem) as (w1 & params & Hrun).
    destruct (IH w1 (tr ++ [SentUpdateItem params]) Hbatch)
      as (w' & added & Hrest & Hreq & Hsl).
    exists w', ([SentUpdateItem params] ++ added). split.
    + simpl. unfold bind. rewrite Hrun, Hrest. by rewrite <- app_assoc.
    + rewrite requests_app, sleeps_app, Hreq, Hsl. done.
Qed.

Lemma batchLoop_accepted (rest : list (list Item)) (batchIndex total : nat)
    (counts : nat * nat) (w : World client) (tr : list (event (AttributeMap client))) :
  (batchIndex + length rest = total)%nat →
  Forall ready (concat rest) →
  ∃ w' added,
    batchLoop client config tableName attributesToRemove keySchema rest
              batchIndex total counts (w, tr)
    = Some (Returned ((counts.1 + length (concat rest))%nat, counts.2),
            (w', tr ++ added))
    ∧ requests added = length (concat rest)
    ∧ sleeps added = replicate (length rest - 1) 200%Q.
Proof.
  revert batchIndex counts w tr.
  induction rest as [| batch rest IH]; intros batchIndex counts w tr Htotal Hready.
  - exists w, []. rewrite app_nil_r. simpl. rewrite Nat.add_0_r.
    by destruct counts.
  - change (concat (batch :: rest)) with (batch ++ concat rest) in Hready.
    apply Forall_app in Hready as [Hbatch Hrest].
    destruct (batch_accepted batch w tr Hbatch) as (w1 & added1 & Hrun & Hreq1 & Hsl1).
    simpl batchLoop. unfold bind at 1. rewrite Hrun.
    rewrite countResults_all_succeeded.
    simpl in Htotal.
    destruct rest as [| batch2 rest].
    + destruct (Z.ltb_spec (Z.of_nat batchIndex) (Z.of_nat total - 1)); [simpl in *; lia |].
      unfold bind, ret. simpl batchLoop. unfold ret.
      exists w1, added1. change (concat [batch]) with (batch ++ []).
      rewrite app_nil_r. done.
    + destruct (Z.ltb_spec (Z.of_nat batchIndex) (Z.of_nat total - 1)); [| simpl in *; lia].
      unfold bind at 1. unfold delay at 1.
      edestruct (IH (S batchIndex) ((counts.1 + length batch)%nat, counts.2) w1)
        as (w' & added & Hloop & Hreq & Hsl); [simpl in *; lia | exact Hrest |].
      rewrite Hloop. eexists w', (added1 ++ [Slept 200] ++ added).
      split; [| split].
      * rewrite <- !app_assoc. do 3 f_equal.
        change (concat (batch :: batch2 :: rest)) with (batch ++ concat (batch2 :: rest)).
        rewrite length_app. simpl. f_equal. lia.
      * rewrite !requests_app, Hreq1, Hreq.
        change (concat (batch :: batch2 :: rest)) with (batch ++ concat (batch2 :: rest)).
        rewrite length_app. unfold requests at 1. simpl. lia.
      * rewrite !sleeps_app, Hsl1, Hsl. simpl. by rewrite Nat.sub_0_r.
Qed.

End Accepting.

(** X11: take a table that accepts every update, a positive batch size,
    [MAX_RETRIES > 0], and a list of items none of which has an attribute
    named [hasOwnProperty] and each of which has a key that [marshall]
    converts.  Then [processItemsInBatches] counts every item as a success
    and none as an error, after one request per item and one pacing timer
    of 200 ms between two batches, [ceil(n / BATCH_SIZE) - 1] of them for
    [n] items. *)
Theorem processItemsInBatches_all_accepted (client : Client) (config : Config)
    (items : list Item) (tableName : string) (attributesToRemove : list string)
    (keySchema : KeySchema) (w : World client)
    (tr : list (event (AttributeMap client))) :
  Forall plain items →
  Forall (λ item, ∃ marshalled,
            marshall client (primaryKey keySchema item) = inr marshalled) items →
  (∀ params w, ∃ w', sendUpdateItem client params w = (inr (), w')) →
  0 < MAX_RETRIES config → 0 < BATCH_SIZE config →
  ∃ w' added,
    processItemsInBatches client config items tableName attributesToRemove
                          keySchema (w, tr)
    = Some (Returned (length items, 0%nat), (w', tr ++ added))
    ∧ requests added = length items
    ∧ sleeps added
      = replicate
          (Z.to_nat ((Z.of_nat (length items) + BATCH_SIZE config - 1)
                     / BATCH_SIZE config) - 1)
          200%Q.
Proof.
  intros Hplain Hm Haccept Hretries Hbatch.
  unfold processItemsInBatches, groupIntoBatches.
  destruct (groupLoop_spec (BATCH_SIZE config) items Hbatch (length items) 0 [])
    as (batches & Hgroup & Hcat & Hlen & _); [lia | lia |].
  simpl in Hgroup, Hcat. rewrite Hgroup.
  change (drop (Z.to_nat 0) items) with items in Hcat.
  assert (Hready : Forall (λ item, plain item
                             ∧ ∃ marshalled,
                                 marshall client (primaryKey keySchema item)
                                 = inr marshalled)
                          (concat batches)).
  { rewrite Hcat. apply Forall_forall. intros item Hin. split.
    - by apply (proj1 (Forall_forall _ _) Hplain).
    - by apply (proj1 (Forall_forall _ _) Hm). }
  destruct (batchLoop_accepted client config tableName attributesToRemove keySchema
              Haccept Hretries batches 0 (length batches) (0, 0)%nat w tr)
    as (w' & added & Hrun & Hreq & Hsl); [lia | exact Hready |].
  exists w', added. rewrite Hcat in Hrun, Hreq. split; [exact Hrun |].
  split; [exact Hreq |]. rewrite Hsl. do 2 f_equal.
  unfold batchesFrom in Hlen.
  replace (Z.max (Z.of_nat (length items) - 0) 0) with (Z.of_nat (length items))
    in Hlen by lia.
  lia.
Qed.

Lemma processItemsInBatches_all_accepted_witness :
  ∃ added,
    processItemsInBatches Steady.strict (config ["old"] 5) (page 0 60) "devices"
      ["old"] {| partitionKey := "id"; sortKey := None |} ((), [])
    = Some (Returned (60%nat, 0%nat), ((), added))
    ∧ requests added = 60%nat
    ∧ sleeps added = [200%Q; 200%Q].
Proof.
  assert (Hretries : 0 < MAX_RETRIES (config ["old"] 5)) by (simpl; lia).
  assert (Hbatch : 0 < BATCH_SIZE (config ["old"] 5)) by (simpl; lia).
  assert (Hm : Forall (λ item, ∃ marshalled,
                         marshall Steady.strict
                           (primaryKey {| partitionKey := "id"; sortKey := None |} item)
                         = inr marshalled) (page 0 60)).
  { apply Forall_forall. intros item (k & -> & _)%list_elem_of_fmap.
    eexists. reflexivity. }
  destruct (processItemsInBatches_all_accepted Steady.strict (config ["old"] 5)
              (page 0 60) "devices" ["old"] {| partitionKey := "id"; sortKey := None |}
              () [] (page_plain 0 60) Hm (λ _ w, ex_intro _ w eq_refl)
              Hretries Hbatch)
    as ([] & added & Hrun & Hreq & Hsl).
  exists added. split; [exact Hrun |]. split; [exact Hreq | exact Hsl].
Defined.

(** ** Batch scheduler: a batch size that is not positive *)

(** X12: with a batch size that is zero or negative the scheduler
    returns zero counts at once for an empty list of items; for any other
    list its grouping loop does not end, however long it runs, and
    [processItemsInBatches] never returns. *)
Theorem processItemsInBatches_batch_size_not_positive (client : Client)
    (config : Config) (tableName : string) (attributesToRemove : list string)
    (keySchema : KeySchema) (s : state client) :
  BATCH_SIZE config ≤ 0 →
  processItemsInBatches client config [] tableName attributesToRemove keySchema s
  = Some (Returned (0, 0)%nat, s)
  ∧ ∀ items, items ≠ [] →
      (∀ fuel, groupLoop fuel (BATCH_SIZE config) items 0 [] = None)
      ∧ processItemsInBatches client config items tableName attributesToRemove
                              keySchema s
        = None.
Proof.
  intros Hsize. split; [reflexivity |]. intros items Hne.
  assert (Hstuck : ∀ fuel, groupLoop fuel (BATCH_SIZE config) items 0 [] = None)
    by (intros fuel; by apply groupLoop_stuck).
  split; [exact Hstuck |].
  unfold processItemsInBatches, groupIntoBatches. by rewrite Hstuck.
Qed.

Lemma processItemsInBatches_batch_size_not_positive_witness :
  processItemsInBatches client (mkConfig (Some "devices") (Some "id") ["old"] (-5) 5 100)
    [stale 1 "x"] "devices" ["old"] {| partitionKey := "id"; sortKey := None |}
    (mkWorld [] [] [], [])
  = None.
Proof.
  assert (Hsize : BATCH_SIZE (mkConfig (Some "devices") (Some "id") ["old"] (-5) 5 100) ≤ 0)
    by (simpl; lia).
  destruct (processItemsInBatches_batch_size_not_positive client
              (mkConfig (Some "devices") (Some "id") ["old"] (-5) 5 100)
              "devices" ["old"] {| partitionKey := "id"; sortKey := None |}
              (mkWorld [] [] [], []) Hsize) as [_ Hhang].
  apply (Hhang [stale 1 "x"]). discriminate.
Defined.

(** ** Batch scheduler: bounds on the requests and timers of a run *)

Section Bounds.

Context (client : Client) (config : Config).
Context (tableName : string) (attributesToRemove : list string) (keySchema : KeySchema).

Let perItem : Z := Z.max (MAX_RETRIES config) 0.
Let backoffsPerItem : Z := Z.max (MAX_RETRIES config - 1) 0.

Lemma processItem_bounded (item : Item) (w : World client)
    (tr : list (event (AttributeMap client))) :
  plain item →
  ∃ success w' added,
    processItem client config tableName attributesToRemove keySchema item (w, tr)
    = Some (Returned success, (w', tr ++ added))
    ∧ Z.of_nat (requests added) ≤ perItem
    ∧ Z.of_nat (length (sleeps added)) ≤ backoffsPerItem.
Proof.
  intros Hplain. unfold processItem. unfold bind at 1, call.
  destruct (createUpdateExpression attributesToRemove item)
    as [updateExpression | e] eqn:Hexpr;
    [| by apply createUpdateExpression_thrown in Hexpr as (_ & _ & Hhidden)].
  unfold ret at 1.
  match goal with
  | |- context [updateItemWithRetry _ _ _ ?k ?u ?m] =>
      destruct (updateItemWithRetry_returns client config tableName k u m w tr)
        as (success & w' & added & Hrun & Hreq & Hsl)
  end.
  exists success, w', added. unfold bind. rewrite Hrun. done.
Qed.

Lemma batch_bounded (batch : list Item) (w : World client)
    (tr : list (event (AttributeMap client))) :
  Forall plain batch →
  ∃ results w' added,
    promiseAll (map (processItem client config tableName attributesToRemove keySchema)
                    batch) (w, tr)
    = Some (Returned results, (w', tr ++ added))
    ∧ Z.of_nat (requests added) ≤ Z.of_nat (length batch) * perItem
    ∧ Z.of_nat (length (sleeps added)) ≤ Z.of_nat (length batch) * backoffsPerItem.
Proof.
  revert w tr. induction batch as [| item batch IH]; intros w tr Hplain.
  - exists [], w, []. rewrite app_nil_r. split; [done |].
    unfold requests, sleeps. simpl. lia.
  - apply Forall_cons in Hplain as [Hitem Hbatch].
    destruct (processItem_bounded item w tr Hitem)
      as (success & w1 & added1 & Hrun & Hreq1 & Hsl1).
    destruct (IH w1 (tr ++ added1) Hbatch) as (results & w' & added & Hrest & Hreq & Hsl).
    exists (success :: results), w', (added1 ++ added). split.
    + simpl. unfold bind. rewrite Hrun, Hrest. by rewrite <- app_assoc.
    + rewrite requests_app, sleeps_app, length_app. simpl length. lia.
Qed.

Lemma batchLoop_bounded (rest : list (list Item)) (batchIndex total : nat)
    (counts : nat * nat) (w : World client) (tr : list (event (AttributeMap client))) :
  Forall plain (concat rest) →
  ∃ counts' w' added,
    batchLoop client config tableName attributesToRemove keySchema rest
              batchIndex total counts (w, tr)
    = Some (Returned counts', (w', tr ++ added))
    ∧ Z.of_nat (requests added) ≤ Z.of_nat (length (concat rest)) * perItem
    ∧ Z.of_nat (length (sleeps added))
      ≤ Z.of_nat (length (concat rest)) * backoffsPerItem + Z.of_nat (length rest).
Proof.
  revert batchIndex counts w tr.
  induction rest as [| batch rest IH]; intros batchIndex counts w tr Hplain.
  - exists counts, w, []. rewrite app_nil_r. split; [done |].
    unfold requests, sleeps. simpl. lia.
  - change (concat (batch :: rest)) with (batch ++ concat rest) in Hplain.
    apply Forall_app in Hplain as [Hbatch Hplain].
    destruct (batch_bounded batch w tr Hbatch)
      as (results & w1 & added1 & Hrun & Hreq1 & Hsl1).
    simpl batchLoop. unfold bind at 1. rewrite Hrun.
    set (counts1 := countResults results counts).
    assert (∃ pace, (if Z.of_nat batchIndex <? Z.of_nat total - 1
                     then delay 200 else ret ()) (w1, tr ++ added1)
                    = Some (Returned (), (w1, (tr ++ added1) ++ pace))
                    ∧ requests pace = 0%nat ∧ (length (sleeps pace) ≤ 1)%nat)
      as (pace & Hpace & Hreqp & Hslp).
    { destruct (_ <? _).
      - exists [Slept 200]. split; [done |]. split; [done | simpl; lia].
      - exists []. rewrite app_nil_r. split; [done |]. split; [done | simpl; lia]. }
    unfold bind. rewrite Hpace.
    destruct (IH (S batchIndex) counts1 w1 ((tr ++ added1) ++ pace) Hplain)
      as (counts' & w' & added & Hrest & Hreq & Hsl).
    exists counts', w', (added1 ++ pace ++ added).
    split; [rewrite Hrest; by rewrite <- !app_assoc |].
    rewrite !requests_app, !sleeps_app, !length_app, Hreqp.
    change (concat (batch :: rest)) with (batch ++ concat rest).
    rewrite length_app. simpl length. lia.
Qed.

End Bounds.

(** X20: with a positive batch size, a run of [processItemsInBatches]
    over [n] items none of which has an attribute named [hasOwnProperty]
    returns after at most [n * MAX_RETRIES] update requests (none when
    [MAX_RETRIES] is negative) and at most [n * (MAX_RETRIES - 1)] backoff
    timers besides the pacing timers, of which there are at most as many
    as batches. *)
Theorem processItemsInBatches_bounded (client : Client) (config : Config)
    (items : list Item) (tableName : string) (attributesToRemove : list string)
    (keySchema : KeySchema) (w : World client)
    (tr : list (event (AttributeMap client))) :
  0 < BATCH_SIZE config → Forall plain items →
  ∃ counts w' added,
    processItemsInBatches client config items tableName attributesToRemove
                          keySchema (w, tr)
    = Some (Returned counts, (w', tr ++ added))
    ∧ Z.of_nat (requests added)
      ≤ Z.of_nat (length items) * Z.max (MAX_RETRIES config) 0
    ∧ Z.of_nat (length (sleeps added))
      ≤ Z.of_nat (length items) * Z.max (MAX_RETRIES config - 1) 0
        + (Z.of_nat (length items) + BATCH_SIZE config - 1) / BATCH_SIZE config.
Proof.
  intros Hbatch Hplain. unfold processItemsInBatches, groupIntoBatches.
  destruct (groupLoop_spec (BATCH_SIZE config) items Hbatch (length items) 0 [])
    as (batches & Hgroup & Hcat & Hlen & _); [lia | lia |].
  simpl in Hgroup, Hcat. rewrite Hgroup.
  change (drop (Z.to_nat 0) items) with items in Hcat.
  destruct (batchLoop_bounded client config tableName attributesToRemove keySchema
              batches 0 (length batches) (0, 0)%nat w tr)
    as (counts & w' & added & Hrun & Hreq & Hsl); [by rewrite Hcat |].
  exists counts, w', added. rewrite Hcat in Hreq, Hsl.
  split; [exact Hrun |]. split; [exact Hreq |].
  unfold batchesFrom in Hlen.
  replace (Z.max (Z.of_nat (length items) - 0) 0) with (Z.of_nat (length items))
    in Hlen by lia.
  lia.
Qed.

Lemma processItemsInBatches_bounded_witness :
  ∃ counts w' added,
    processItemsInBatches Steady.jammed (config ["old"] 3) (page 0 4) "devices"
      ["old"] {| partitionKey := "id"; sortKey := None |} ((), [])
    = Some (Returned counts, (w', added))
    ∧ Z.of_nat (requests added) ≤ 12.
Proof.
  assert (Hbatch : 0 < BATCH_SIZE (config ["old"] 3)) by (simpl; lia).
  destruct (processItemsInBatches_bounded Steady.jammed (config ["old"] 3) (page 0 4)
              "devices" ["old"] {| partitionKey := "id"; sortKey := None |} () [] Hbatch
              (page_plain 0 4))
    as (counts & w' & added & Hrun & Hreq & _).
  exists counts, w', added. split; [exact Hrun | exact Hreq].
Defined.

(** ** Main function *)

Section Main.

Context (client : Client) (config : Config).

Let tableName : string := default "" (TABLE_NAME config).
Let keySchema : KeySchema :=
  {| partitionKey := default "undefined" (PARTITION_KEY config); sortKey := None |}.

(** [main] with a configuration that passes its checks, by the way the
    scan, the filter and the batches end. *)
Lemma main_valid (fuel : nat) (s : state client) :
  validConfiguration config →
  main client config fuel s
  = match scanAllItems client config fuel tableName s with
    | None => None
    | Some (Thrown e, s1) => Some (Returned (Exit1 e), s1)
    | Some (Returned allItems, s1) =>
        if (length allItems =? 0)%nat then Some (Returned NoItems, s1)
        else
          match filterItemsWithAttributes allItems (ATTRIBUTES_TO_REMOVE config) with
          | Thrown e => Some (Returned (Exit1 e), s1)
          | Returned itemsToUpdate =>
              if (length itemsToUpdate =? 0)%nat
              then Some (Returned (AllClean (length allItems)), s1)
              else
                match processItemsInBatches client config itemsToUpdate tableName
                        (ATTRIBUTES_TO_REMOVE config) keySchema s1 with
                | None => None
                | Some (Thrown e, s2) => Some (Returned (Exit1 e), s2)
                | Some (Returned results, s2) =>
                    Some (Returned (Completed {| totalScanned := length allItems;
                                                 needingUpdate := length itemsToUpdate;
                                                 succeeded := results.1;
                                                 failed := results.2 |}), s2)
                end
          end
    end.
Proof.
  intros (Htable & Hkey & Hattrs). unfold main, tryCatch.
  assert (Hlen : (length (ATTRIBUTES_TO_REMOVE config) =? 0)%nat = false)
    by (destruct (ATTRIBUTES_TO_REMOVE config); [by elim Hattrs | done]).
  rewrite Htable, Hkey, Hlen. change (negb true) with false. cbv beta iota.
  unfold getTableKeySchema. unfold bind at 1. unfold ret at 1. unfold bind at 1.
  fold tableName. fold keySchema.
  destruct (scanAllItems client config fuel tableName s) as [[[allItems | e] s1] |];
    [| reflexivity | reflexivity].
  destruct (length allItems =? 0)%nat; [reflexivity |].
  unfold bind at 1, call.
  destruct (filterItemsWithAttributes allItems (ATTRIBUTES_TO_REMOVE config))
    as [itemsToUpdate | e]; [| reflexivity].
  unfold ret at 1.
  destruct (length itemsToUpdate =? 0)%nat; [reflexivity |].
  unfold bind.
  destruct (processItemsInBatches client config _ tableName _ keySchema s1)
    as [[[results | e] s2] |]; reflexivity.
Qed.

End Main.

Lemma main_invalid (client : Client) (config : Config) (fuel : nat)
    (s : state client) :
  ¬ validConfiguration config →
  ∃ msg, main client config fuel s = Some (Returned (Exit1 (Error msg)), s).
Proof.
  intros Hinvalid. unfold main, tryCatch.
  destruct (truthyString (TABLE_NAME config)) eqn:H1; [| eauto].
  destruct (truthyString (PARTITION_KEY config)) eqn:H2; [| eauto].
  destruct (ATTRIBUTES_TO_REMOVE config) as [| attr attrs] eqn:H3; [eauto |].
  exfalso. apply Hinvalid. unfold validConfiguration. rewrite H1, H2, H3. done.
Qed.

(** X13: [main] checks its configuration before it touches the table:
    without a table name, without a partition key or without attributes to
    remove it ends in its [catch] with the message of the first failed
    check, and has sent no request. *)
Theorem main_rejects_invalid_configuration (client : Client) (config : Config)
    (fuel : nat) (s : state client) :
  (truthyString (TABLE_NAME config) = false →
   main client config fuel s
   = Some (Returned (Exit1 (Error "DYNAMODB_TABLE_NAME environment variable is required")),
           s))
  ∧ (truthyString (TABLE_NAME config) = true →
     truthyString (PARTITION_KEY config) = false →
     main client config fuel s
     = Some (Returned (Exit1 (Error "PARTITION_KEY environment variable is required")),
             s))
  ∧ (truthyString (TABLE_NAME config) = true →
     truthyString (PARTITION_KEY config) = true →
     ATTRIBUTES_TO_REMOVE config = [] →
     main client config fuel s
     = Some (Returned (Exit1 (Error
               "ATTRIBUTES_TO_REMOVE environment variable is required (comma-separated list)")),
             s)).
Proof.
  unfold main, tryCatch. split; [| split].
  - by intros ->.
  - by intros -> ->.
  - by intros -> -> ->.
Qed.

Lemma main_rejects_invalid_configuration_witness :
  main client (mkConfig (Some "devices") None ["old"] 25 5 100) 4 (threeItems, [])
  = Some (Returned (Exit1 (Error "PARTITION_KEY environment variable is required")),
          (threeItems, [])).
Proof.
  destruct (main_rejects_invalid_configuration client
              (mkConfig (Some "devices") None ["old"] 25 5 100) 4 (threeItems, []))
    as (_ & Hkey & _).
  apply Hkey; reflexivity.
Defined.

(** X14: [main] never ends by throwing: whatever the scan or the updates
    do, an error ends in its [catch].  With a positive batch size it ends
    whenever its scan ends. *)
Theorem main_catches_everything (client : Client) (config : Config) (fuel : nat)
    (s : state client) :
  (∀ r s', main client config fuel s = Some (r, s') → ∃ o, r = Returned o)
  ∧ (0 < BATCH_SIZE config →
     is_Some (scanAllItems client config fuel (default "" (TABLE_NAME config)) s) →
     ∃ o s', main client config fuel s = Some (Returned o, s')).
Proof.
  assert (Hinvalid : ¬ validConfiguration config →
                     ∃ o, main client config fuel s = Some (Returned o, s)).
  { intros Hinvalid. destruct (main_invalid client config fuel s Hinvalid) as [msg Hmain].
    eauto. }
  destruct (decide (truthyString (TABLE_NAME config) = true
                    ∧ truthyString (PARTITION_KEY config) = true
                    ∧ ATTRIBUTES_TO_REMOVE config ≠ [])) as [Hvalid | Hno].
  - rewrite (main_valid client config fuel s Hvalid). split.
    + intros r s'.
      destruct (scanAllItems client config fuel _ s) as [[[allItems | e] s1] |];
        [| intros [= <- _]; eauto | done].
      destruct (length allItems =? 0)%nat; [intros [= <- _]; eauto |].
      destruct (filterItemsWithAttributes _ _) as [itemsToUpdate | e];
        [| intros [= <- _]; eauto].
      destruct (length itemsToUpdate =? 0)%nat; [intros [= <- _]; eauto |].
      destruct (processItemsInBatches client config _ _ _ _ s1)
        as [[[results | e] s2] |]; [| | done]; intros [= <- _]; eauto.
    + intros Hbatch [[r s1] Hscan]. rewrite Hscan.
      destruct r as [allItems | e]; [| eauto].
      destruct (length allItems =? 0)%nat; [eauto |].
      destruct (filterItemsWithAttributes _ _) as [itemsToUpdate | e]; [| eauto].
      destruct (length itemsToUpdate =? 0)%nat; [eauto |].
      match goal with
      | |- context [processItemsInBatches _ _ ?its ?t ?a ?k ?st] =>
          destruct (processItemsInBatches_outcome client config t a k its st Hbatch)
            as (r & s2 & Hrun & _)
      end.
      rewrite Hrun. destruct r; eauto.
  - destruct (Hinvalid Hno) as [o Hmain]. rewrite Hmain. split.
    + intros r s' [= <- _]. eauto.
    + eauto.
Qed.

Lemma main_catches_everything_witness :
  ∃ o s', main client (config ["old"] 5) 4 (threeItems, []) = Some (Returned o, s').
Proof.
  assert (Hbatch : 0 < BATCH_SIZE (config ["old"] 5)) by (simpl; lia).
  destruct (main_catches_everything client (config ["old"] 5) 4 (threeItems, []))
    as [_ Hends].
  apply Hends; [exact Hbatch |].
  eexists. reflexivity.
Defined.

(** X15: when the scan throws, [main] ends in its [catch] with that
    error and the table as the scan left it: no update is sent. *)
Theorem main_scan_error (client : Client) (config : Config) (fuel : nat)
    (s s1 : state client) (e : error) :
  validConfiguration config →
  scanAllItems client config fuel (default "" (TABLE_NAME config)) s
  = Some (Thrown e, s1) →
  main client config fuel s = Some (Returned (Exit1 e), s1).
Proof.
  intros Hvalid Hscan. rewrite (main_valid client config fuel s Hvalid).
  by rewrite Hscan.
Qed.

Lemma main_scan_error_witness :
  main client (config ["old"] 5) 4 (mkWorld [inl denied] [] [], [])
  = Some (Returned (Exit1 denied),
          (mkWorld [] [] [], [SentScan (mkScanCommandInput "devices" None)])).
Proof.
  apply main_scan_error.
  - repeat split; done.
  - reflexivity.
Defined.

(** X16: when the scan returns items none of which has an attribute to
    remove or an attribute named [hasOwnProperty], [main] sends no update:
    it ends with the table and the events as the scan left them, reporting
    an empty table or the number of clean items. *)
Theorem main_nothing_to_update (client : Client) (config : Config) (fuel : nat)
    (s s1 : state client) (allItems : list Item) :
  validConfiguration config →
  scanAllItems client config fuel (default "" (TABLE_NAME config)) s
  = Some (Returned allItems, s1) →
  Forall plain allItems →
  Forall (λ item, ¬ hasAny (ATTRIBUTES_TO_REMOVE config) item) allItems →
  main client config fuel s
  = Some (Returned (match allItems with
                    | [] => NoItems
                    | _ => AllClean (length allItems)
                    end), s1).
Proof.
  intros Hvalid Hscan Hplain Hclean. rewrite (main_valid client config fuel s Hvalid).
  rewrite Hscan. destruct allItems as [| item rest]; [done |].
  rewrite (filterItemsWithAttributes_plain _ _ Hplain).
  rewrite filter_none; [done |]. eapply Forall_impl; [exact Hclean |].
  intros it Hnone Hany. apply Hnone. by apply hasAny_Exists.
Qed.

Lemma main_nothing_to_update_witness :
  ∃ s1,
    main client (config ["old"] 5) 4
      (mkWorld [inr (mkScanCommandOutput (Some (page 0 3)) None)] [inl denied] [], [])
    = Some (Returned (AllClean 3), s1)
    ∧ requests s1.2 = 1%nat.
Proof.
  eexists. split.
  - apply (main_nothing_to_update client (config ["old"] 5) 4 _ _ (page 0 3)).
    + repeat split; done.
    + reflexivity.
    + apply page_plain.
    + apply Forall_forall. intros item (k & -> & _)%list_elem_of_fmap.
      intros (attr & ->%list_elem_of_singleton & [v Hv]). discriminate Hv.
  - reflexivity.
Defined.

(** X23: when the scan returns a list of items one of which has an
    attribute named [hasOwnProperty], [main] ends in its [catch] with the
    [TypeError] of the change filter, with the table and the events as the
    scan left them: no update is sent, for no item. *)
Theorem main_hidden_method (client : Client) (config : Config) (fuel : nat)
    (s s1 : state client) (allItems : list Item) :
  validConfiguration config →
  scanAllItems client config fuel (default "" (TABLE_NAME config)) s
  = Some (Returned allItems, s1) →
  Exists (λ item, ¬ plain item) allItems →
  main client config fuel s = Some (Returned (Exit1 notAFunction), s1).
Proof.
  intros Hvalid Hscan Hhidden. rewrite (main_valid client config fuel s Hvalid).
  rewrite Hscan. destruct allItems as [| item rest]; [by apply Exists_nil in Hhidden |].
  rewrite filterItemsWithAttributes_hidden; [done | apply Hvalid |].
  intros Hplain. apply Exists_exists in Hhidden as (it & Hin & Hit).
  apply Hit. by apply (proj1 (Forall_forall _ _) Hplain).
Qed.

Lemma main_hidden_method_witness :
  ∃ s1,
    main client (config ["old"] 5) 4
      (mkWorld [inr (mkScanCommandOutput
                       (Some [stale 1 "x"; hiding (stale 2 "y")]) None)] [] [], [])
    = Some (Returned (Exit1 notAFunction), s1)
    ∧ requests s1.2 = 1%nat.
Proof.
  eexists. split.
  - apply (main_hidden_method client (config ["old"] 5) 4 _ _
             [stale 1 "x"; hiding (stale 2 "y")]).
    + repeat split; done.
    + reflexivity.
    + apply Exists_cons_tl, Exists_cons_hd. discriminate.
  - reflexivity.
Defined.

(** X17: when the first request of the scan is throttled, [main] awaits
    the backoff and reports an empty table, after that single request. *)
Theorem main_first_request_throttled (client : Client) (config : Config)
    (fuel : nat) (w w1 w2 : World client) (tr : list (event (AttributeMap client)))
    (e : error) (rnd : Q) :
  validConfiguration config →
  let params := mkScanCommandInput (default "" (TABLE_NAME config)) None in
  sendScan client params w = (inl e, w1) →
  isThrottle e = true →
  mathRandom client w1 = (rnd, w2) →
  main client config (S fuel) (w, tr)
  = Some (Returned NoItems,
          (w2, tr ++ [SentScan params;
                      Slept (calculateBackoffDelay 1 (inject_Z (INITIAL_DELAY config))
                                                   rnd)])).
Proof.
  intros Hvalid params Hsend Hthr Hrnd.
  rewrite (main_valid client config (S fuel) (w, tr) Hvalid).
  rewrite (scanAllItems_throttled_at_start client config _ fuel w w1 tr e Hsend Hthr).
  rewrite Hrnd. simpl. by rewrite <- app_assoc.
Qed.

Lemma main_first_request_throttled_witness :
  main client (config ["old"] 5) 4
    (mkWorld [inl throttled; inr (mkScanCommandOutput (Some [stale 1 "x"]) None)]
             [] [1 # 2], [])
  = Some (Returned NoItems,
          (mkWorld [inr (mkScanCommandOutput (Some [stale 1 "x"]) None)] [] [],
           [SentScan (mkScanCommandInput "devices" None);
            Slept (calculateBackoffDelay 1 100 (1 # 2))])).
Proof.
  apply (main_first_request_throttled client (config ["old"] 5) 3 _
           (mkWorld [inr (mkScanCommandOutput (Some [stale 1 "x"]) None)] [] [1 # 2])
           _ [] throttled (1 # 2)).
  - repeat split; done.
  - reflexivity.
  - reflexivity.
  - reflexivity.
Defined.

(** ** Configuration from the environment *)

Lemma splitOn_length (sep : Ascii.ascii) (s : string) :
  length (splitOn sep s) = S (occurrences sep s).
Proof.
  induction s as [| c rest IH]; [done |].
  simpl. destruct (Ascii.eqb c sep); simpl; [by rewrite IH |].
  destruct (splitOn sep rest); simpl in *; lia.
Qed.

Lemma join_cons_char (sep : string) (c : Ascii.ascii) (part : string)
    (parts : list string) :
  join sep (String c part :: parts) = String c (join sep (part :: parts)).
Proof. by destruct parts. Qed.

Lemma join_splitOn (sep : Ascii.ascii) (s : string) :
  join (String sep "") (splitOn sep s) = s.
Proof.
  induction s as [| c rest IH]; [done |].
  simpl splitOn. destruct (Ascii.eqb_spec c sep) as [-> | Hne].
  - pose proof (splitOn_length sep rest) as Hlen.
    destruct (splitOn sep rest) as [| part parts]; [simpl in Hlen; lia |].
    change (join (String sep "") ("" :: part :: parts))
      with (String sep (join (String sep "") (part :: parts))).
    by rewrite IH.
  - pose proof (splitOn_length sep rest) as Hlen.
    destruct (splitOn sep rest) as [| part parts]; [simpl in Hlen; lia |].
    by rewrite join_cons_char, IH.
Qed.

(** X18: the numeric settings are never zero: where the variable is
    unset, is not a number or is [0], the script takes its default (25 per
    batch, 5 retries, 100 ms), so [MAX_RETRIES=0] gives 5 retries; any
    other number, a negative one too, is taken as it is.  With a negative
    [BATCH_SIZE] the scheduler then never returns from a list that is not
    empty, and with a negative [MAX_RETRIES] every call of
    [updateItemWithRetry] returns [false] without a request, so that every
    item without an attribute named [hasOwnProperty] is counted as
    failed. *)
Theorem loadConfig_numbers (trim : string → string)
    (parseInt : option string → option Z) (env : gmap string string) :
  let config := loadConfig trim parseInt env in
  (BATCH_SIZE config ≠ 0 ∧ MAX_RETRIES config ≠ 0 ∧ INITIAL_DELAY config ≠ 0)
  ∧ (parseInt (env !! "BATCH_SIZE") ∈ [None; Some 0] → BATCH_SIZE config = 25)
  ∧ (parseInt (env !! "MAX_RETRIES") ∈ [None; Some 0] → MAX_RETRIES config = 5)
  ∧ (parseInt (env !! "INITIAL_DELAY") ∈ [None; Some 0] → INITIAL_DELAY config = 100)
  ∧ (∀ n, n ≠ 0 →
       (parseInt (env !! "BATCH_SIZE") = Some n → BATCH_SIZE config = n)
       ∧ (parseInt (env !! "MAX_RETRIES") = Some n → MAX_RETRIES config = n)
       ∧ (parseInt (env !! "INITIAL_DELAY") = Some n → INITIAL_DELAY config = n))
  ∧ (∀ n, n < 0 → parseInt (env !! "BATCH_SIZE") = Some n →
       ∀ client items tableName attributesToRemove keySchema s,
         items ≠ [] →
         processItemsInBatches client config items tableName attributesToRemove
                               keySchema s
         = None)
  ∧ (∀ n, n < 0 → parseInt (env !! "MAX_RETRIES") = Some n →
       ∀ client tableName s,
         (∀ key updateExpression,
            updateItemWithRetry client config tableName key updateExpression
                                (MAX_RETRIES config) s
            = Some (Returned false, s))
         ∧ (∀ attributesToRemove keySchema item,
              plain item →
              processItem client config tableName attributesToRemove keySchema
                          item s
              = Some (Returned false, s))).
Proof.
  intros config.
  assert (Hnonzero : ∀ n d, d ≠ 0 → orNumber n d ≠ 0).
  { intros [n |] d Hd; simpl; [| done]. by destruct (Z.eqb_spec n 0). }
  assert (Hdefault : ∀ n d, n ∈ [None; Some 0] → orNumber n d = d).
  { intros n d Hn. apply elem_of_cons in Hn as [-> | Hn]; [done |].
    apply list_elem_of_singleton in Hn as ->. done. }
  assert (Hkept : ∀ n d, n ≠ 0 → orNumber (Some n) d = n).
  { intros n d Hn. simpl. by destruct (Z.eqb_spec n 0). }
  split; [split; [| split]; by apply Hnonzero |].
  split; [apply Hdefault |]. split; [apply Hdefault |]. split; [apply Hdefault |].
  split; [| split].
  - intros n Hn. subst config. simpl.
    split; [| split]; intros ->; by apply Hkept.
  - intros n Hn Hparsed client items tableName attributesToRemove keySchema s Hne.
    assert (Hsize : BATCH_SIZE config = n)
      by (subst config; simpl; rewrite Hparsed; apply Hkept; lia).
    unfold processItemsInBatches, groupIntoBatches.
    rewrite groupLoop_stuck; [done | lia | lia | done].
  - intros n Hn Hparsed client tableName s.
    assert (Hretries : MAX_RETRIES config = n)
      by (subst config; simpl; rewrite Hparsed; apply Hkept; lia).
    assert (Hcall : ∀ key updateExpression,
               updateItemWithRetry client config tableName key updateExpression
                                   (MAX_RETRIES config) s
               = Some (Returned false, s)).
    { intros key updateExpression. unfold updateItemWithRetry.
      rewrite updateLoop_exit by lia. done. }
    split; [exact Hcall |].
    intros attributesToRemove keySchema item Hplain.
    unfold processItem. unfold bind at 1, call.
    destruct (createUpdateExpression attributesToRemove item)
      as [updateExpression | e] eqn:Hexpr;
      [| by apply createUpdateExpression_thrown in Hexpr as (_ & _ & Hhidden)].
    unfold ret at 1. unfold bind. by rewrite Hcall.
Qed.

Lemma loadConfig_numbers_witness :
  let config := loadConfig (λ s, s) (λ _, Some 0)
                           {[ "MAX_RETRIES" := "0"; "BATCH_SIZE" := "0" ]} in
  MAX_RETRIES config = 5 ∧ BATCH_SIZE config = 25.
Proof.
  destruct (loadConfig_numbers (λ s, s) (λ _, Some 0)
              {[ "MAX_RETRIES" := "0"; "BATCH_SIZE" := "0" ]})
    as (_ & Hbatch & Hretries & _).
  split; [apply Hretries | apply Hbatch]; apply list_elem_of_further, list_elem_of_here.
Defined.

(** X19: the list of attributes to remove is empty only when the
    variable is unset.  When it is set the list has one entry more than
    the value has commas, each a trimmed piece of the value, and joining
    the untrimmed pieces with commas gives the value back.  So for a value
    that is the empty string the list is one (trimmed) empty name, and the
    check of [main] for a missing list does not fire. *)
Theorem loadConfig_attributes (trim : string → string)
    (parseInt : option string → option Z) (env : gmap string string) :
  let config := loadConfig trim parseInt env in
  (ATTRIBUTES_TO_REMOVE config = [] ↔ env !! "ATTRIBUTES_TO_REMOVE" = None)
  ∧ (∀ value, env !! "ATTRIBUTES_TO_REMOVE" = Some value →
       ATTRIBUTES_TO_REMOVE config = trim <$> splitOn comma value
       ∧ length (ATTRIBUTES_TO_REMOVE config) = S (occurrences comma value)
       ∧ join "," (splitOn comma value) = value)
  ∧ (env !! "ATTRIBUTES_TO_REMOVE" = Some "" →
     ATTRIBUTES_TO_REMOVE config = [trim ""]
     ∧ (truthyString (TABLE_NAME config) = true →
        truthyString (PARTITION_KEY config) = true →
        validConfiguration config)).
Proof.
  simpl. destruct (env !! "ATTRIBUTES_TO_REMOVE") as [value |] eqn:Hvalue.
  - split; [| split].
    + split; [| done]. intros Hnil. apply (f_equal length) in Hnil.
      rewrite length_map, splitOn_length in Hnil. done.
    + intros ? [= <-]. split; [done |]. split.
      * by rewrite length_map, splitOn_length.
      * apply (join_splitOn comma).
    + intros [= ->]. split; [done |]. intros Htable Hkey.
      unfold validConfiguration. simpl. rewrite Hvalue. done.
  - split; [done |]. split; [done | done].
Qed.

Lemma loadConfig_attributes_witness :
  ATTRIBUTES_TO_REMOVE
    (loadConfig (λ s, s) (λ _, None) {[ "ATTRIBUTES_TO_REMOVE" := "old,,gone" ]})
  = ["old"; ""; "gone"].
Proof.
  destruct (loadConfig_attributes (λ s, s) (λ _, None)
              {[ "ATTRIBUTES_TO_REMOVE" := "old,,gone" ]}) as (_ & Hset & _).
  destruct (Hset "old,,gone" eq_refl) as (Hlist & _).
  rewrite Hlist. reflexivity.
Defined.
